(** * The Dynamo connector hook ([useDynamoConnector])

    A shallow embedding of the connector hook of the Forma Dynamo
    extension: port discovery, the connection-state machine driven by the
    two effects of the hook, the service facade with its error feedback,
    and the queued service in front of it.

    The hook imports [service/dynamo.ts] and [utils/PromiseQueue.ts], which
    are not among the sources.  The service class enters as a parameter
    ([newDynamo], and the network [net] behind the health request); the
    probe contract and the queue follow the specification, and say so. *)

From Stdlib Require Import ZArith List String Bool Arith Lia DecimalString DecimalPos DecimalZ.
Import ListNotations.

Local Open Scope string_scope.

(** ** Data model *)

(** [enum DynamoConnectionState]. *)
Inductive DynamoConnectionState : Type :=
| INIT
| CONNECTED
| MULTIPLE_CONNECTIONS
| NOT_CONNECTED
| BLOCKED
| LOST_CONNECTION.

Definition DynamoConnectionState_eq_dec (a b : DynamoConnectionState) :
  {a = b} + {a <> b}.
Proof. decide equality. Defined.

Definition state_eqb (a b : DynamoConnectionState) : bool :=
  if DynamoConnectionState_eq_dec a b then true else false.

(** Modelled from the spec: the payload types are declared in
    [service/dynamo.ts], which is not among the sources.  They are opaque
    to the hook, which only forwards them, and are kept as the JSON text
    that travels over the wire. *)
Definition Json : Type := string.
Definition GraphInfo : Type := Json.
Definition RunInputs : Type := Json.
Definition FolderListing : Type := Json.
Definition RunResult : Type := Json.
Definition TrustResult : Type := Json.
Definition ServerInfo : Type := Json.

(** Modelled from the spec: [GraphTarget] is declared in
    [service/dynamo.ts].  A target is either the current graph, which the
    hook builds itself as [{ type: "CurrentGraphTarget" }], or an explicit
    graph identifier. *)
Inductive GraphTarget : Type :=
| CurrentGraphTarget
| PathGraphTarget (path : string).

(** [type DynamoState]. *)
Record DynamoState : Type := mkDynamoState {
  currentOpenGraph : option GraphInfo;
  connectionState : DynamoConnectionState
}.

(** The object spread [{ ...state, connectionState: cs }]. *)
Definition withConnectionState (cs : DynamoConnectionState) (st : DynamoState)
  : DynamoState :=
  {| currentOpenGraph := currentOpenGraph st; connectionState := cs |}.

(** The two [useState] cells of the hook. *)
Record Connector : Type := mkConnector {
  state : DynamoState;
  dynamoPort : option Z
}.

(** [useState] initial values. *)
Definition initialConnector : Connector :=
  {| state := {| currentOpenGraph := None; connectionState := INIT |};
     dynamoPort := None |}.

(** Modelled from the spec: [FetchError] is declared in
    [service/dynamo.ts].  The hook reads two of its fields: [status], absent
    when the request never got a response, and [message]. *)
Record FetchError : Type := mkFetchError {
  status : option Z;
  message : string
}.

(** Modelled from the spec: what the health request resolves with is
    declared in [service/dynamo.ts]; the hook reads [response.port]. *)
Record HealthResponse : Type := mkHealthResponse {
  port : Z
}.

(** A settled promise. *)
Inductive Settled (A : Type) : Type :=
| Resolved (a : A)
| Thrown (e : FetchError).
Arguments Resolved {A} a.
Arguments Thrown {A} e.

(** ** Hook computations: the two state cells plus promise rejection *)

Definition Hook (A : Type) : Type := Connector -> Settled A * Connector.

Definition ret {A} (a : A) : Hook A := fun c => (Resolved a, c).

Definition throw {A} (e : FetchError) : Hook A := fun c => (Thrown e, c).

Definition bind {A B} (m : Hook A) (k : A -> Hook B) : Hook B :=
  fun c =>
    match m c with
    | (Resolved a, c') => k a c'
    | (Thrown e, c') => (Thrown e, c')
    end.

(** [promise.catch(handler)]. *)
Definition catch {A} (m : Hook A) (handler : FetchError -> Hook A) : Hook A :=
  fun c =>
    match m c with
    | (Resolved a, c') => (Resolved a, c')
    | (Thrown e, c') => handler e c'
    end.

(** Awaiting a promise that the outside world has settled. *)
Definition await {A} (p : Settled A) : Hook A := fun c => (p, c).

(** [setState(updater)]. *)
Definition setState (updater : DynamoState -> DynamoState) : Hook unit :=
  fun c => (Resolved tt, {| state := updater (state c); dynamoPort := dynamoPort c |}).

(** [setDynamoPort(value)]. *)
Definition setDynamoPort (value : option Z) : Hook unit :=
  fun c => (Resolved tt, {| state := state c; dynamoPort := value |}).

Declare Scope hook_scope.
Delimit Scope hook_scope with hook.
Notation "x <- m ;; k" := (bind m (fun x => k))
  (at level 61, m at next level, right associativity) : hook_scope.
Notation "m ;; k" := (bind m (fun _ => k))
  (at level 61, right associativity) : hook_scope.

(** Store and outcome of running a computation. *)
Definition exec {A} (m : Hook A) (c : Connector) : Connector := snd (m c).
Definition outcome {A} (m : Hook A) (c : Connector) : Settled A := fst (m c).

(** ** Probes and [Promise.any] *)

(** [ProbeResult] of the data model. *)
Inductive ProbeResult : Type :=
| Live (livePort : Z)
| Unreachable
| Rejected (statusCode : Z).

(** One health request as the network settles it: when, and how. *)
Record Probe : Type := mkProbe {
  settledAt : nat;
  result : ProbeResult
}.

(** Modelled from the spec: [Dynamo.health] of [service/dynamo.ts] is not
    among the sources.  Per the Probe contract a [Live(port)] result is a
    resolved promise carrying the port, [Rejected(code)] a rejection whose
    error has that status, and [Unreachable] a rejection with no status
    (connection refusal or timeout). *)
Definition probePromise (r : ProbeResult) : Settled HealthResponse :=
  match r with
  | Live p => Resolved {| port := p |}
  | Unreachable => Thrown {| status := None; message := "Failed to fetch" |}
  | Rejected code => Thrown {| status := Some code; message := "Service Unavailable" |}
  end.

(** A pending promise together with the instant at which it settles. *)
Definition Timed (A : Type) : Type := (nat * Settled A)%type.

(** The earliest promise to resolve, scanning in iteration order; among
    promises resolving at the same instant the one listed first wins. *)
Fixpoint firstResolved {A} (best : option (nat * A)) (ps : list (Timed A))
  : option (nat * A) :=
  match ps with
  | [] => best
  | (t, Resolved a) :: ps' =>
      match best with
      | Some (tb, _) =>
          if (t <? tb)%nat then firstResolved (Some (t, a)) ps'
          else firstResolved best ps'
      | None => firstResolved (Some (t, a)) ps'
      end
  | (_, Thrown _) :: ps' => firstResolved best ps'
  end.

(** The rejection reasons, in iteration order ([AggregateError.errors]). *)
Fixpoint rejections {A} (ps : list (Timed A)) : list FetchError :=
  match ps with
  | [] => []
  | (_, Resolved _) :: ps' => rejections ps'
  | (_, Thrown e) :: ps' => e :: rejections ps'
  end.

(** What a [try { await ... } catch (e)] around [Promise.any] can see. *)
Inductive AnyOutcome (A : Type) : Type :=
| AnyResolved (a : A)
| AggregateError (errors : list FetchError).
Arguments AnyResolved {A} a.
Arguments AggregateError {A} errors.

(** [Promise.any(promises)]: resolves with the first promise to resolve,
    rejects with an [AggregateError] of all reasons when every one rejects. *)
Definition Promise_any {A} (ps : list (Timed A)) : AnyOutcome A :=
  match firstResolved None ps with
  | Some (_, a) => AnyResolved a
  | None => AggregateError (rejections ps)
  end.

(** [(e as FetchError).status === 503]. *)
Definition status_is (code : Z) (e : FetchError) : bool :=
  match status e with
  | Some s => Z.eqb s code
  | None => false
  end.

(** ** The service class *)

(** Modelled from the spec: the class [Dynamo] of [service/dynamo.ts] is
    not among the sources.  These are the instance methods the facade
    calls, each already applied to the network: a call yields the promise
    as it eventually settles. *)
Record Dynamo : Type := mkDynamo {
  dynamo_folder : string -> Settled FolderListing;
  dynamo_info : GraphTarget -> Settled GraphInfo;
  dynamo_run : GraphTarget -> RunInputs -> Settled RunResult;
  dynamo_trust : string -> Settled TrustResult;
  dynamo_serverInfo : Settled ServerInfo
}.

(** [type DynamoService]. *)
Record DynamoService : Type := mkDynamoService {
  folder : string -> Hook FolderListing;
  current : Hook GraphInfo;
  info : GraphTarget -> Hook GraphInfo;
  run : GraphTarget -> RunInputs -> Hook RunResult;
  trust : string -> Hook TrustResult;
  serverInfo : Hook ServerInfo;
  health : Z -> Hook HealthResponse
}.

(** Decimal rendering of a port inside a template literal. *)
Definition showPort (p : option Z) : string :=
  match p with
  | Some n => NilZero.string_of_int (Z.to_int n)
  | None => "undefined"
  end.

(** ** The hook *)

Local Open Scope hook_scope.

(** [getDynamoUrl]. *)
Definition getDynamoUrl (c : Connector) : string :=
  "http://localhost:" ++ showPort (dynamoPort c).

Definition defaultPort : Z := 55100.

(** [[...Array(10)].map((_, i) => defaultPort + i)]. *)
Definition portsToCheck : list Z :=
  map (fun i => (defaultPort + Z.of_nat i)%Z) (seq 0 10).

(** The static [Dynamo.health(port)] against a network [net] that says, for
    every port, when and how the request made to it settles. *)
Definition Dynamo_health (net : Z -> Probe) (p : Z) : Timed HealthResponse :=
  (settledAt (net p), probePromise (result (net p))).

(** [portDiscovery] up to its [await]: the port is cleared and every health
    request is issued, none of them awaited yet. *)
Definition portDiscovery_start : Hook unit :=
  setDynamoPort None.

Definition portDiscovery_requests (net : Z -> Probe) : list (Timed HealthResponse) :=
  map (fun p => Dynamo_health net p) portsToCheck.

(** [portDiscovery] from the moment [Promise.any] settles. *)
Definition portDiscovery_finish (net : Z -> Probe) : Hook unit :=
  match Promise_any (portDiscovery_requests net) with
  | AnyResolved response =>
      setState (withConnectionState CONNECTED) ;;
      setDynamoPort (Some (port response))
  | AggregateError errors =>
      match find (status_is 503) errors with
      | Some _ => setState (withConnectionState BLOCKED)
      | None => setState (withConnectionState NOT_CONNECTED)
      end
  end.

(** [portDiscovery], run with nothing else touching the hook in between. *)
Definition portDiscovery (net : Z -> Probe) : Hook unit :=
  portDiscovery_start ;; portDiscovery_finish net.

(** The handler that [folder], [run] and [trust] each hand to [catch]:
    [setState] to [LOST_CONNECTION], then [throw e]. *)
Definition lostConnection {A} (e : FetchError) : Hook A :=
  setState (withConnectionState LOST_CONNECTION) ;; throw e.

(** [e.status === 500 && e.message === "Graph is not trusted."]. *)
Definition isNotTrusted (e : FetchError) : bool :=
  status_is 500 e && String.eqb (message e) "Graph is not trusted.".

(** [dynamoLocalService], memoised on [getDynamoUrl]: [newDynamo] stands for
    [new Dynamo(url)], [net] for the network behind [Dynamo.health]. *)
Definition dynamoLocalService (newDynamo : string -> Dynamo) (net : Z -> Probe)
  (c : Connector) : DynamoService :=
  let url := getDynamoUrl c in
  let dynamo := newDynamo url in
  {| folder := fun path =>
       catch (await (dynamo_folder dynamo path)) (fun e => lostConnection e);
     current := await (dynamo_info dynamo CurrentGraphTarget);
     info := fun target =>
       catch (await (dynamo_info dynamo target))
         (fun e =>
            (if negb (isNotTrusted e)
             then setState (withConnectionState LOST_CONNECTION)
             else ret tt) ;;
            throw e);
     run := fun target inputs =>
       catch (await (dynamo_run dynamo target inputs)) (fun e => lostConnection e);
     trust := fun path =>
       catch (await (dynamo_trust dynamo path)) (fun e => lostConnection e);
     serverInfo := await (dynamo_serverInfo dynamo);
     health := fun p => await (snd (Dynamo_health net p)) |}.

(** ** The two effects and the interval timer *)

(** First effect: [portDiscovery()] is called when the state is [INIT]. *)
Definition initEffect (cs : DynamoConnectionState) : bool :=
  state_eqb cs INIT.

(** The array tested with [includes] in the second effect. *)
Definition pollingStates : list DynamoConnectionState :=
  [NOT_CONNECTED; MULTIPLE_CONNECTIONS; BLOCKED; LOST_CONNECTION].

(** Second effect: the delay handed to [setInterval], if it is called. *)
Definition timerEffect (cs : DynamoConnectionState) : option nat :=
  if existsb (state_eqb cs) pollingStates then Some 2000 else None.

(** A live [setInterval]: its delay and the milliseconds left until it
    fires next. *)
Record Interval : Type := mkInterval {
  delay : nat;
  remaining : nat
}.

(** The mounted hook: its cells, the interval of the second effect, a
    millisecond clock, the instants at which [portDiscovery] was called, and
    the number of calls whose [Promise.any] has not settled yet. *)
Record World : Type := mkWorld {
  hook : Connector;
  intervalId : option Interval;
  clock : nat;
  roundStarts : list nat;
  inflight : nat
}.

Definition connectionOf (w : World) : DynamoConnectionState :=
  connectionState (state (hook w)).

(** A call of [portDiscovery]: it runs up to its [await] at once. *)
Definition startRound (w : World) : World :=
  {| hook := exec portDiscovery_start (hook w);
     intervalId := intervalId w;
     clock := clock w;
     roundStarts := roundStarts w ++ [clock w];
     inflight := S (inflight w) |}.

(** Both effect bodies, run in order for the current connection state; the
    clean-up of the second effect has cleared the previous interval. *)
Definition applyEffects (w : World) : World :=
  let w1 := if initEffect (connectionOf w) then startRound w else w in
  {| hook := hook w1;
     intervalId :=
       match timerEffect (connectionOf w) with
       | Some ms => Some {| delay := ms; remaining := ms |}
       | None => None
       end;
     clock := clock w1;
     roundStarts := roundStarts w1;
     inflight := inflight w1 |}.

(** Effects depend on [state.connectionState] only: they re-run after a
    render in which that value differs from the previous one. *)
Definition afterRender (previous : DynamoConnectionState) (w : World) : World :=
  if state_eqb previous (connectionOf w) then w else applyEffects w.

(** A computation of the hook settles and the component re-renders. *)
Definition commit {A} (m : Hook A) (w : World) : World :=
  afterRender (connectionOf w)
    {| hook := exec m (hook w);
       intervalId := intervalId w;
       clock := clock w;
       roundStarts := roundStarts w;
       inflight := inflight w |}.

(** First render. *)
Definition mount : World :=
  applyEffects
    {| hook := initialConnector;
       intervalId := None;
       clock := 0;
       roundStarts := [];
       inflight := 0 |}.

(** One millisecond passes; an interval that runs out calls
    [portDiscovery] and starts over. *)
Definition tick (w : World) : World :=
  let w' := {| hook := hook w;
               intervalId := intervalId w;
               clock := S (clock w);
               roundStarts := roundStarts w;
               inflight := inflight w |} in
  match intervalId w with
  | None => w'
  | Some iv =>
      if (remaining iv <=? 1)%nat
      then
        let w'' := startRound w' in
        {| hook := hook w'';
           intervalId := Some {| delay := delay iv; remaining := delay iv |};
           clock := clock w'';
           roundStarts := roundStarts w'';
           inflight := inflight w'' |}
      else
        {| hook := hook w';
           intervalId := Some {| delay := delay iv; remaining := remaining iv - 1 |};
           clock := clock w';
           roundStarts := roundStarts w';
           inflight := inflight w' |}
  end.

Fixpoint elapse (ms : nat) (w : World) : World :=
  match ms with
  | O => w
  | S ms' => elapse ms' (tick w)
  end.

(** The [Promise.any] of a pending [portDiscovery] call settles. *)
Definition roundSettles (net : Z -> Probe) (w : World) : World :=
  match inflight w with
  | O => w
  | S n =>
      commit (portDiscovery_finish net)
        {| hook := hook w;
           intervalId := intervalId w;
           clock := clock w;
           roundStarts := roundStarts w;
           inflight := n |}
  end.

(** What can happen to the mounted hook. *)
Inductive Happening : Type :=
| Elapse (ms : nat)
| RoundSettles (net : Z -> Probe)
| CallSettles (A : Type) (call : Hook A)
| Reconnect.

Definition happen (h : Happening) (w : World) : World :=
  match h with
  | Elapse ms => elapse ms w
  | RoundSettles net => roundSettles net w
  | CallSettles _ call => commit call w
  | Reconnect => startRound w
  end.

Definition happenAll (hs : list Happening) (w : World) : World :=
  fold_left (fun w h => happen h w) hs w.

(** Calls of [portDiscovery] made while [h] is handled. *)
Definition roundsStartedBy (h : Happening) (w : World) : nat :=
  List.length (roundStarts (happen h w)) - List.length (roundStarts w).

(** ** The queued service *)

(** What [queue.enqueue] is handed: the thunk, and the line it logs when
    it starts. *)
Record Task : Type := mkTask {
  label : string;
  resultType : Type;
  thunk : Hook resultType
}.

(** [queuedDynamoLocalService]: for every operation, the task it hands to
    [queue.enqueue].  The queue is the one created by the same [useMemo]
    call. *)
Record QueuedService : Type := mkQueuedService {
  queued_folder : string -> Task;
  queued_current : Task;
  queued_info : GraphTarget -> Task;
  queued_run : GraphTarget -> RunInputs -> Task;
  queued_trust : string -> Task;
  queued_serverInfo : Task;
  queued_health : Z -> Task
}.

Definition queuedDynamoLocalService (svc : DynamoService) : QueuedService :=
  {| queued_folder := fun path =>
       {| label := "executing: folder"; thunk := folder svc path |};
     queued_current :=
       {| label := "executing: current"; thunk := info svc CurrentGraphTarget |};
     queued_info := fun target =>
       {| label := "executing: info"; thunk := info svc target |};
     queued_run := fun target inputs =>
       {| label := "executing: run"; thunk := run svc target inputs |};
     queued_trust := fun path =>
       {| label := "executing: trust"; thunk := trust svc path |};
     queued_serverInfo :=
       {| label := "executing: serverInfo"; thunk := serverInfo svc |};
     queued_health := fun p =>
       {| label := "executing: health"; thunk := health svc p |} |}.

Module PromiseQueue.

(** Modelled from the spec: [utils/PromiseQueue.ts] is not among the
    sources.  The queue is the single worker of the design notes: tasks
    wait in submission order, at most one is in flight, and when it
    settles the next one is taken.  Tickets number the submissions. *)
Record t : Type := mkQueue {
  running : option (nat * Task);
  pending : list (nat * Task);
  submitted : nat
}.

Definition empty : t :=
  {| running := None; pending := []; submitted := 0 |}.

Inductive Event : Type :=
| Started (ticket : nat) (name : string)
| Finished (ticket : nat) (name : string) (ok : bool).

(** The queue, the hook cells its tasks act on, and what was observed. *)
Record Sys : Type := mkSys {
  queue : t;
  store : Connector;
  log : list Event
}.

Definition start (c : Connector) : Sys :=
  {| queue := empty; store := c; log := [] |}.

Definition isResolved {A} (r : Settled A) : bool :=
  match r with
  | Resolved _ => true
  | Thrown _ => false
  end.

(** Modelled from the spec: an idle worker takes the oldest waiting task. *)
Definition dispatch (s : Sys) : Sys :=
  match running (queue s), pending (queue s) with
  | None, (i, task) :: rest =>
      {| queue := {| running := Some (i, task);
                     pending := rest;
                     submitted := submitted (queue s) |};
         store := store s;
         log := log s ++ [Started i (label task)] |}
  | _, _ => s
  end.

(** Modelled from the spec: [enqueue(thunk)] appends to the waiting
    tasks. *)
Definition enqueue (task : Task) (s : Sys) : Sys :=
  dispatch
    {| queue := {| running := running (queue s);
                   pending := pending (queue s) ++ [(submitted (queue s), task)];
                   submitted := S (submitted (queue s)) |};
       store := store s;
       log := log s |}.

(** Modelled from the spec: the task in flight settles, with success or
    with failure alike, and the worker moves on. *)
Definition settle (s : Sys) : Sys :=
  match running (queue s) with
  | None => s
  | Some (i, task) =>
      let (r, c') := thunk task (store s) in
      dispatch
        {| queue := {| running := None;
                       pending := pending (queue s);
                       submitted := submitted (queue s) |};
           store := c';
           log := log s ++ [Finished i (label task) (isResolved r)] |}
  end.

(** Callers submit and the network settles, in any interleaving. *)
Inductive Cmd : Type :=
| Enqueue (task : Task)
| Settle.

Definition step (s : Sys) (c : Cmd) : Sys :=
  match c with
  | Enqueue task => enqueue task s
  | Settle => settle s
  end.

Definition run (cmds : list Cmd) (s : Sys) : Sys :=
  fold_left step cmds s.

(** The tasks one after the other, each to completion. *)
Fixpoint serial (first : nat) (tasks : list Task) (c : Connector)
  : list Event * Connector :=
  match tasks with
  | [] => ([], c)
  | task :: rest =>
      let (r, c') := thunk task c in
      let (events, c'') := serial (S first) rest c' in
      (Started first (label task)
         :: Finished first (label task) (isResolved r) :: events, c'')
  end.

Definition ticketOf (e : Event) : nat :=
  match e with
  | Started i _ => i
  | Finished i _ _ => i
  end.

Definition isStarted (e : Event) : bool :=
  match e with
  | Started _ _ => true
  | Finished _ _ _ => false
  end.

(** Waiting tasks carry consecutive tickets. *)
Definition ticketed (first : nat) (tasks : list Task) : list (nat * Task) :=
  combine (seq first (List.length tasks)) tasks.

(** The tasks a command sequence submits, in submission order. *)
Definition submittedTasks (cmds : list Cmd) : list Task :=
  flat_map (fun c => match c with Enqueue task => [task] | Settle => [] end) cmds.

(** Tasks submitted and not settled yet. *)
Definition backlog (s : Sys) : nat :=
  (match running (queue s) with Some _ => 1 | None => 0 end
   + List.length (pending (queue s)))%nat.

(** The two shapes of a queue that was handed [tasks] from the cells
    [c0]: idle with every task done, or busy with the task that follows
    the settled ones while the later ones wait. *)
Inductive Shape (c0 : Connector) (tasks : list Task) : Sys -> Prop :=
| ShapeIdle : forall events c,
    serial 0 tasks c0 = (events, c) ->
    Shape c0 tasks
      {| queue := {| running := None; pending := [];
                     submitted := List.length tasks |};
         store := c;
         log := events |}
| ShapeBusy : forall settled task waiting events c,
    tasks = (settled ++ task :: waiting)%list ->
    serial 0 settled c0 = (events, c) ->
    Shape c0 tasks
      {| queue := {| running := Some (List.length settled, task);
                     pending := ticketed (S (List.length settled)) waiting;
                     submitted := List.length tasks |};
         store := c;
         log := (events ++ [Started (List.length settled) (label task)])%list |}.

End PromiseQueue.

(** ** Vocabulary for one discovery round *)

(** The results of the ten probes of a round, in candidate order. *)
Definition probeResults (net : Z -> Probe) : list ProbeResult :=
  map (fun p => result (net p)) portsToCheck.

Definition isLive (r : ProbeResult) : bool :=
  match r with
  | Live _ => true
  | _ => false
  end.

Definition isRejected (r : ProbeResult) : bool :=
  match r with
  | Rejected _ => true
  | _ => false
  end.

Definition isRejectedWith (code : Z) (r : ProbeResult) : bool :=
  match r with
  | Rejected c => Z.eqb c code
  | _ => false
  end.

Definition isUnreachable (r : ProbeResult) : bool :=
  match r with
  | Unreachable => true
  | _ => false
  end.

Definition countOf (f : ProbeResult -> bool) (rs : list ProbeResult) : nat :=
  List.length (filter f rs).

(** The connector after a whole round run from [c]. *)
Definition afterRound (net : Z -> Probe) (c : Connector) : Connector :=
  exec (portDiscovery net) c.

(** ** Vocabulary for facade calls *)

(** A call of one operation of [dynamoLocalService]. *)
Inductive FacadeCall : Type :=
| CallFolder (path : string)
| CallCurrent
| CallInfo (target : GraphTarget)
| CallRun (target : GraphTarget) (inputs : RunInputs)
| CallTrust (path : string)
| CallServerInfo
| CallHealth (p : Z).

(** The failure a settled promise carries, if it was rejected. *)
Definition failure {A} (r : Settled A) : option FetchError :=
  match r with
  | Resolved _ => None
  | Thrown e => Some e
  end.

(** A computation observed up to success or failure: the value it
    resolves with is dropped. *)
Definition forgetValue {A} (m : Hook A) : Hook unit :=
  fun c =>
    match m c with
    | (Resolved _, c') => (Resolved tt, c')
    | (Thrown e, c') => (Thrown e, c')
    end.

(** The call made on the service [svc]. *)
Definition perform (svc : DynamoService) (call : FacadeCall) : Hook unit :=
  match call with
  | CallFolder path => forgetValue (folder svc path)
  | CallCurrent => forgetValue (current svc)
  | CallInfo target => forgetValue (info svc target)
  | CallRun target inputs => forgetValue (run svc target inputs)
  | CallTrust path => forgetValue (trust svc path)
  | CallServerInfo => forgetValue (serverInfo svc)
  | CallHealth p => forgetValue (health svc p)
  end.

(** The failure with which the underlying request of a call settles. *)
Definition requestFailure (dynamo : Dynamo) (net : Z -> Probe) (call : FacadeCall)
  : option FetchError :=
  match call with
  | CallFolder path => failure (dynamo_folder dynamo path)
  | CallCurrent => failure (dynamo_info dynamo CurrentGraphTarget)
  | CallInfo target => failure (dynamo_info dynamo target)
  | CallRun target inputs => failure (dynamo_run dynamo target inputs)
  | CallTrust path => failure (dynamo_trust dynamo path)
  | CallServerInfo => failure (dynamo_serverInfo dynamo)
  | CallHealth p => failure (snd (Dynamo_health net p))
  end.

(** The operations whose [catch] handler touches the connection state. *)
Definition hasErrorFeedback (call : FacadeCall) : bool :=
  match call with
  | CallFolder _ | CallInfo _ | CallRun _ _ | CallTrust _ => true
  | CallCurrent | CallServerInfo | CallHealth _ => false
  end.

(** The hook cells after the handler's [setState]. *)
Definition demoted (c : Connector) : Connector :=
  {| state := withConnectionState LOST_CONNECTION (state c);
     dynamoPort := dynamoPort c |}.

(** The failure that [info] lets through without touching the state. *)
Definition exempt (call : FacadeCall) (e : FetchError) : bool :=
  match call with
  | CallInfo _ => isNotTrusted e
  | _ => false
  end.

(** ** Concrete networks, services and connectors *)

(** A network given by the probes that answer; every other port refuses
    the connection. *)
Definition netOf (answers : list (Z * Probe)) (p : Z) : Probe :=
  match find (fun entry => Z.eqb (fst entry) p) answers with
  | Some entry => snd entry
  | None => {| settledAt := 1; result := Unreachable |}
  end.

Definition nobodyHome : Z -> Probe := netOf [].

Definition oneInstance : Z -> Probe :=
  netOf [(55103%Z, {| settledAt := 3; result := Live 55103 |})].

Definition twoInstances : Z -> Probe :=
  netOf [(55101%Z, {| settledAt := 9; result := Live 55101 |});
         (55104%Z, {| settledAt := 4; result := Live 55104 |})].

Definition busyInstance : Z -> Probe :=
  netOf [(55102%Z, {| settledAt := 2; result := Rejected 503 |})].

Definition connectedAt (p : Z) : Connector :=
  {| state := {| currentOpenGraph := Some "tower.dyn";
                 connectionState := CONNECTED |};
     dynamoPort := Some p |}.

Definition connectionRefused : FetchError :=
  {| status := None; message := "Failed to fetch" |}.

Definition notTrusted : FetchError :=
  {| status := Some 500%Z; message := "Graph is not trusted." |}.

(** A service that has gone away: every request fails to connect. *)
Definition goneDynamo (url : string) : Dynamo :=
  {| dynamo_folder := fun _ => Thrown connectionRefused;
     dynamo_info := fun _ => Thrown connectionRefused;
     dynamo_run := fun _ _ => Thrown connectionRefused;
     dynamo_trust := fun _ => Thrown connectionRefused;
     dynamo_serverInfo := Thrown connectionRefused |}.

(** A healthy service that refuses to describe an untrusted graph. *)
Definition waryDynamo (url : string) : Dynamo :=
  {| dynamo_folder := fun _ => Resolved "[]";
     dynamo_info := fun _ => Thrown notTrusted;
     dynamo_run := fun _ _ => Resolved "{}";
     dynamo_trust := fun _ => Resolved "true";
     dynamo_serverInfo := Resolved "{}" |}.

(** The hook once its first round has found the instance on 55103. *)
Definition connectedWorld : World :=
  happen (RoundSettles oneInstance) mount.

(** A [run] that finds the service gone. *)
Definition failingRun : Happening :=
  CallSettles unit
    (perform (dynamoLocalService goneDynamo nobodyHome (hook connectedWorld))
       (CallRun CurrentGraphTarget "{}")).

Definition lostWorld : World :=
  happen failingRun connectedWorld.

(** Two callers submit [folder] and [run] at the same instant against a
    service that has gone away; then both requests settle. *)
Definition twoCallers : list PromiseQueue.Cmd :=
  let queued :=
    queuedDynamoLocalService
      (dynamoLocalService goneDynamo nobodyHome (connectedAt 55103)) in
  [PromiseQueue.Enqueue (queued_folder queued "/a");
   PromiseQueue.Enqueue (queued_run queued CurrentGraphTarget "{}");
   PromiseQueue.Settle;
   PromiseQueue.Settle].

(** ** Runs of the mounted hook *)

(** What the outside world does to the mounted hook: time passes, the
    [Promise.any] of a pending round settles against some network, a call
    made on a service object (memoised when the cells were [rendered])
    settles, or [reconnect] is called. *)
Inductive HookEvent : Type :=
| TimePasses (ms : nat)
| RoundDone (net : Z -> Probe)
| FacadeCallDone (newDynamo : string -> Dynamo) (net : Z -> Probe)
    (rendered : Connector) (call : FacadeCall)
| ReconnectCalled.

Definition eventHappening (e : HookEvent) : Happening :=
  match e with
  | TimePasses ms => Elapse ms
  | RoundDone net => RoundSettles net
  | FacadeCallDone newDynamo net rendered call =>
      CallSettles unit (perform (dynamoLocalService newDynamo net rendered) call)
  | ReconnectCalled => Reconnect
  end.

(** The hook after the first render and the given events. *)
Definition play (events : list HookEvent) : World :=
  happenAll (map eventHappening events) mount.

(** The interval is the one the second effect installs for the current
    connection state, somewhere in its countdown. *)
Definition intervalMatches (w : World) : bool :=
  match intervalId w, timerEffect (connectionOf w) with
  | Some iv, Some ms =>
      (delay iv =? ms)%nat && (1 <=? remaining iv)%nat && (remaining iv <=? ms)%nat
  | None, None => true
  | _, _ => false
  end.

(** ** The drop zone component ([DropZone]) *)

Module DropZone.

(** A [File]; the component only passes files on. *)
Definition File : Type := string.

(** A [DataTransferItem]: its [kind] and what [getAsFile()] returns. *)
Record DataTransferItem : Type := mkItem {
  kind : string;
  getAsFile : option File
}.

(** [event.dataTransfer], with the two lists the handler looks at; either
    may be missing. *)
Record DataTransfer : Type := mkDataTransfer {
  items : option (list DataTransferItem);
  files : option (list File)
}.

Record DragEvent : Type := mkDragEvent {
  dataTransfer : option DataTransfer
}.

(** [onFileDropped] may throw; [throws] says on which argument.  The
    argument is absent when the handler passes [undefined]. *)
Definition Callback : Type := option File -> bool.

(** [array.forEach(body)] where the body calls [onFileDropped] and may
    throw: the calls made, in order, and whether an exception escaped. *)
Fixpoint forEach {A} (body : A -> list File * bool) (xs : list A)
  : list File * bool :=
  match xs with
  | [] => ([], false)
  | x :: rest =>
      let (calls, thrown) := body x in
      if thrown then (calls, true)
      else let (later, thrown') := forEach body rest in
           ((calls ++ later)%list, thrown')
  end.

(** The body of the loop over [dataTransfer.items]. *)
Definition dropItem (throws : Callback) (item : DataTransferItem)
  : list File * bool :=
  if String.eqb (kind item) "file"
  then match getAsFile item with
       | Some file => ([file], throws (Some file))
       | None => ([], false)
       end
  else ([], false).

(** The body of the loop over [dataTransfer.files]. *)
Definition dropFile (throws : Callback) (file : File) : list File * bool :=
  ([file], throws (Some file)).

Record DropResult : Type := mkDropResult {
  defaultPrevented : bool;
  dragging : bool;
  dropped : list File;
  escaped : bool
}.

(** [onDrop]. *)
Definition onDrop (throws : Callback) (event : DragEvent) : DropResult :=
  let outcome :=
    match option_map items (dataTransfer event) with
    | Some (Some its) => forEach (dropItem throws) its
    | _ =>
        forEach (dropFile throws)
          match option_map files (dataTransfer event) with
          | Some (Some fs) => fs
          | _ => []
          end
    end in
  {| defaultPrevented := true;
     dragging := false;
     dropped := fst outcome;
     escaped := snd outcome |}.

Record ChangeResult : Type := mkChangeResult {
  delivered : list (option File);
  logged : bool
}.

(** [input.onchange], with [files] standing for [input.files]: an
    exception of the callback is caught and logged. *)
Definition onchange (throws : Callback) (files : option (list File))
  : ChangeResult :=
  match files with
  | None => {| delivered := []; logged := false |}
  | Some fs =>
      let file := hd_error fs in
      {| delivered := [file]; logged := throws file |}
  end.

(** [input.accept] as [onClickDropZone] sets it. *)
Definition accept (filetypes : list string) : string :=
  String.concat "," filetypes.

(** What the render shows of the state. *)
Record Rendered : Type := mkRendered {
  backgroundColor : string;
  border : string;
  caption : string
}.

Definition render (filetypes : list string) (isDragging : bool) : Rendered :=
  {| backgroundColor := if isDragging then "#0696D730" else "white";
     border := if isDragging then "1px dashed #0696D780"
               else "1px dashed var(--border-base)";
     caption := "Files to import (" ++ String.concat ", " filetypes ++ ")" |}.

(** The events the component handles; [Change] is the change of the file
    input that a click has opened. *)
Inductive UiEvent : Type :=
| Click
| DragOver
| DragEnd
| Drop (event : DragEvent)
| Change (files : option (list File)).

(** The [dragging] cell after one event. *)
Definition handle (throws : Callback) (isDragging : bool) (e : UiEvent) : bool :=
  match e with
  | Click => isDragging
  | DragOver => isDragging
  | DragEnd => false
  | Drop event => dragging (onDrop throws event)
  | Change _ => isDragging
  end.

(** The [dragging] cell after the events, from [useState(false)]. *)
Definition draggingAfter (throws : Callback) (events : list UiEvent) : bool :=
  fold_left (handle throws) events false.

(** A callback that never throws. *)
Definition quiet : Callback := fun _ => false.

(** A drop of a text snippet between two files, as browsers report it. *)
Definition mixedDrop : DragEvent :=
  {| dataTransfer :=
       Some {| items := Some [ {| kind := "file"; getAsFile := Some "a.dyn" |};
                               {| kind := "string"; getAsFile := None |};
                               {| kind := "file"; getAsFile := Some "b.dyn" |} ];
               files := Some ["a.dyn"; "b.dyn"] |} |}.

End DropZone.

(** ** The share form ([PublishGraph]) *)

Module PublishGraph.

(** [type DynamoGraph]: the four named keys, absent when the uploaded
    JSON lacks them, and every other key as it came. *)
Record DynamoGraph : Type := mkDynamoGraph {
  Name : option string;
  Description : option string;
  Author : option string;
  Thumbnail : option string;
  others : list (string * Json)
}.

(** [type User]. *)
Record User : Type := mkUser {
  sub : string;
  userName : string
}.

(** [type PageState]. *)
Inductive PageState : Type :=
| Default
| Invalid (message : string)
| Publishing
| Published
| Failed.

Inductive ShareDestination : Type :=
| Project
| Hub.

(** The argument of [setPage]. *)
Inductive Page : Type :=
| DefaultPage
| SetupPage
| PublishPage (initialValue : option DynamoGraph)
    (initialShareDestination : option ShareDestination).

(** The [useState] cells of the component. *)
Record Cells : Type := mkCells {
  name : string;
  description : string;
  author : string;
  publisher : option User;
  shareDestination : ShareDestination;
  state : PageState;
  uploadedGraph : option DynamoGraph
}.

(** The cells at the first render. *)
Definition initialCells (initialValue : option DynamoGraph)
  (initialShareDestination : ShareDestination) : Cells :=
  {| name := ""; description := ""; author := ""; publisher := None;
     shareDestination := initialShareDestination; state := Default;
     uploadedGraph := initialValue |}.

(** An awaited call of the embedding platform: done, or an exception. *)
Inductive Attempt (A : Type) : Type :=
| Done (a : A)
| Raised (reason : string).
Arguments Done {A} a.
Arguments Raised {A} reason.

(** What [Forma.project.get()] resolves with, as far as it is read. *)
Record ProjectInfo : Type := mkProjectInfo {
  hubId : string
}.

(** The argument of [Forma.extensions.storage.setObject]. *)
Record StorageObject : Type := mkStorageObject {
  key : string;
  authcontext : string;
  data : string;
  metadata : string
}.

(** The platform calls [publishGraph] makes, as they turn out. *)
Record Forma : Type := mkForma {
  project_get : Attempt ProjectInfo;
  getProjectId : string;
  storage_setObject : StorageObject -> Attempt unit
}.

(** The helpers imported from elsewhere: [v4()] as the identifier it
    yields, [filterForSize], [JSON.stringify] on a graph, and the encoding
    [encodeURIComponent(JSON.stringify({ publisher: { sub, name } }))] of
    the two publisher fields, each absent without a publisher. *)
Record Helpers : Type := mkHelpers {
  v4 : string;
  filterForSize : DynamoGraph -> DynamoGraph;
  stringify : DynamoGraph -> string;
  encodeMetadata : option string -> option string -> string
}.

(** What [publishGraph] does, in order. *)
Inductive Effect : Type :=
| SetState (s : PageState)
| ProjectGet
| SetObject (object : StorageObject)
| SetPage (page : Page)
| CaptureException (reason : string) (context : string).

(** [!s] for a string cell. *)
Definition blank (s : string) : bool := String.eqb s "".

(** [!name || !description || !author || !uploadedGraph]. *)
Definition incomplete (cells : Cells) : bool :=
  blank (name cells) || blank (description cells) || blank (author cells)
  || match uploadedGraph cells with Some _ => false | None => true end.

(** The nested conditional inside the message. *)
Definition missingField (cells : Cells) : string :=
  if blank (name cells) then "Name"
  else if blank (description cells) then "Description"
  else if blank (author cells) then "Author"
  else "Graph".

(** [{ ...uploadedGraph, Name: name, Description: description, Author:
    author }]; spreading an absent graph adds nothing. *)
Definition graphToShare (cells : Cells) : DynamoGraph :=
  {| Name := Some (name cells);
     Description := Some (description cells);
     Author := Some (author cells);
     Thumbnail := match uploadedGraph cells with
                  | Some g => Thumbnail g
                  | None => None
                  end;
     others := match uploadedGraph cells with
               | Some g => others g
               | None => []
               end |}.

(** The object handed to [setObject]. *)
Definition storageObject (h : Helpers) (forma : Forma) (project : ProjectInfo)
  (cells : Cells) : StorageObject :=
  {| key := v4 h;
     authcontext := match shareDestination cells with
                    | Project => getProjectId forma
                    | Hub => hubId project
                    end;
     data := stringify h (filterForSize h (graphToShare cells));
     metadata := encodeMetadata h (option_map sub (publisher cells))
                   (option_map userName (publisher cells)) |}.

(** The [catch] block. *)
Definition failed (reason : string) : list Effect :=
  [CaptureException reason "Error sharing graph"; SetState Failed].

(** [publishGraph]. *)
Definition publishGraph (h : Helpers) (forma : Forma) (cells : Cells)
  : list Effect :=
  SetState Publishing ::
  if incomplete cells
  then [SetState (Invalid ("Please fill out " ++ missingField cells))]
  else
    ProjectGet ::
    match project_get forma with
    | Raised reason => failed reason
    | Done project =>
        SetObject (storageObject h forma project cells) ::
        match storage_setObject forma (storageObject h forma project cells) with
        | Raised reason => failed reason
        | Done _ => [SetState Published; SetPage DefaultPage]
        end
    end.



(** [graph?.field?.length], as a condition. *)
Definition filled (field : option string) : bool :=
  match field with
  | Some s => negb (String.eqb s "")
  | None => false
  end.

Definition fieldOr (field : option string) (current : string) : string :=
  match field with
  | Some s => if String.eqb s "" then current else s
  | None => current
  end.

(** The effect on [uploadedGraph]: the three inputs take the graph's
    values where it has non-empty ones. *)
Definition prefill (cells : Cells) : Cells :=
  {| name := fieldOr (match uploadedGraph cells with
                      | Some g => Name g | None => None end) (name cells);
     description := fieldOr (match uploadedGraph cells with
                             | Some g => Description g | None => None end)
                      (description cells);
     author := fieldOr (match uploadedGraph cells with
                        | Some g => Author g | None => None end) (author cells);
     publisher := publisher cells;
     shareDestination := shareDestination cells;
     state := state cells;
     uploadedGraph := uploadedGraph cells |}.

(** A graph as a user would upload it, and a platform that works. *)
Definition tower : DynamoGraph :=
  {| Name := Some "Tower"; Description := Some "A parametric tower";
     Author := Some "Ada"; Thumbnail := None;
     others := [("Nodes", "[]")] |}.

Definition plainHelpers : Helpers :=
  {| v4 := "0b6a3c1e";
     filterForSize := fun g => g;
     stringify := fun g => match Name g with Some n => n | None => "" end;
     encodeMetadata := fun s n => match n with Some x => x | None => "" end |}.

Definition workingForma : Forma :=
  {| project_get := Done {| hubId := "hub-1" |};
     getProjectId := "project-1";
     storage_setObject := fun _ => Done tt |}.

End PublishGraph.


(** [reconnect] is called while the round of the first render is pending;
    one of the two rounds finds the instance on 55103, the other, settling
    later, finds nobody. *)
Definition overlappingRounds : list HookEvent :=
  [ReconnectCalled; RoundDone oneInstance; RoundDone nobodyHome].

(** * Properties *)

Local Open Scope list_scope.
Local Open Scope nat_scope.

Lemma state_eqb_eq a b : state_eqb a b = true <-> a = b.
Proof.
  unfold state_eqb.
  destruct (DynamoConnectionState_eq_dec a b) as [->|ne]; split; intro H;
    try reflexivity; try discriminate.
  contradiction.
Qed.

Lemma state_eqb_refl a : state_eqb a a = true.
Proof. apply state_eqb_eq. reflexivity. Qed.

Lemma state_eqb_neq a b : a <> b -> state_eqb a b = false.
Proof.
  intro ne. destruct (state_eqb a b) eqn:E; [|reflexivity].
  apply state_eqb_eq in E. contradiction.
Qed.

(** ** [Promise.any] *)

Section PromiseAny.
Context {A : Type}.
Implicit Types (ps : list (Timed A)) (best : option (nat * A)).

Lemma firstResolved_None ps : forall best,
  firstResolved best ps = None ->
  best = None /\ forall t a, ~ In (t, Resolved a) ps.
Proof.
  induction ps as [|[t [a|e]] ps IH]; intros best H; simpl in H.
  - split; [assumption | intros ? ? []].
  - destruct best as [[tb b]|].
    + destruct (t <? tb)%nat; apply IH in H; destruct H; discriminate.
    + apply IH in H. destruct H; discriminate.
  - apply IH in H. destruct H as [Hb Hn]. split; [assumption|].
    intros t' a' [Heq|Hin]; [discriminate | exact (Hn _ _ Hin)].
Qed.

Lemma firstResolved_Some ps : forall best t a,
  firstResolved best ps = Some (t, a) ->
  (best = Some (t, a) \/ In (t, Resolved a) ps)
  /\ (forall tb b, best = Some (tb, b) -> t <= tb)
  /\ (forall t' a', In (t', Resolved a') ps -> t <= t').
Proof.
  induction ps as [|[t0 [a0|e0]] ps IH]; intros best t a H; simpl in H.
  - subst best. split; [left; reflexivity|]. split.
    + intros tb b E. injection E as -> _. apply Nat.le_refl.
    + intros ? ? [].
  - destruct best as [[tb b]|].
    + destruct (t0 <? tb)%nat eqn:Lt.
      * apply Nat.ltb_lt in Lt.
        apply IH in H. destruct H as [Hsrc [Hb Hall]].
        assert (t <= t0) by (apply (Hb t0 a0); reflexivity).
        split; [|split].
        -- destruct Hsrc as [E|Hin].
           ++ injection E as -> ->. right; left; reflexivity.
           ++ right; right; assumption.
        -- intros tb' b' E. injection E as -> _. lia.
        -- intros t' a' [E|Hin]; [injection E as -> _; lia | eauto].
      * apply Nat.ltb_ge in Lt.
        apply IH in H. destruct H as [Hsrc [Hb Hall]].
        assert (t <= tb) by (apply (Hb tb b); reflexivity).
        split; [|split].
        -- destruct Hsrc as [E|Hin]; [left; assumption | right; right; assumption].
        -- intros tb' b' E. injection E as -> _. assumption.
        -- intros t' a' [E|Hin]; [injection E as -> _; lia | eauto].
    + apply IH in H. destruct H as [Hsrc [Hb Hall]].
      assert (t <= t0) by (apply (Hb t0 a0); reflexivity).
      split; [|split].
      * destruct Hsrc as [E|Hin].
        -- injection E as -> ->. right; left; reflexivity.
        -- right; right; assumption.
      * intros ? ? E; discriminate.
      * intros t' a' [E|Hin]; [injection E as -> _; lia | eauto].
  - apply IH in H. destruct H as [Hsrc [Hb Hall]].
    split; [|split].
    + destruct Hsrc; [left | right; right]; assumption.
    + assumption.
    + intros t' a' [E|Hin]; [discriminate | eauto].
Qed.

Lemma firstResolved_inhabited ps t a : forall best,
  In (t, Resolved a) ps -> firstResolved best ps <> None.
Proof.
  intros best Hin H. apply firstResolved_None in H.
  destruct H as [_ Hn]. exact (Hn _ _ Hin).
Qed.

Lemma rejections_In ps e :
  In e (rejections ps) <-> exists t, In (t, Thrown e) ps.
Proof.
  induction ps as [|[t [a|e0]] ps IH]; simpl.
  - split; [intros [] | intros [? []]].
  - rewrite IH. split.
    + intros [t' H]. exists t'. right; assumption.
    + intros [t' [E|H]]; [discriminate | exists t'; assumption].
  - rewrite IH. split.
    + intros [->|[t' H]]; [exists t; left; reflexivity | exists t'; right; assumption].
    + intros [t' [E|H]]; [injection E as _ ->; left; reflexivity | right; exists t'; assumption].
Qed.

(** [Promise.any] resolves exactly when some promise resolves, and then
    with one that no other resolving promise precedes. *)
Lemma Promise_any_resolved ps t a :
  In (t, Resolved a) ps ->
  exists t0 a0,
    Promise_any ps = AnyResolved a0
    /\ In (t0, Resolved a0) ps
    /\ forall t' a', In (t', Resolved a') ps -> t0 <= t'.
Proof.
  intro Hin. unfold Promise_any.
  destruct (firstResolved None ps) as [[t0 a0]|] eqn:E.
  - exists t0, a0. apply firstResolved_Some in E.
    destruct E as [[E|Hsrc] [_ Hall]]; [discriminate|].
    repeat split; assumption.
  - exfalso. exact (firstResolved_inhabited ps t a None Hin E).
Qed.

Lemma Promise_any_rejected ps :
  (forall t a, ~ In (t, Resolved a) ps) ->
  Promise_any ps = AggregateError (rejections ps).
Proof.
  intro Hn. unfold Promise_any.
  destruct (firstResolved None ps) as [[t0 a0]|] eqn:E; [|reflexivity].
  apply firstResolved_Some in E. destruct E as [[E|Hsrc] _]; [discriminate|].
  exfalso. exact (Hn _ _ Hsrc).
Qed.

End PromiseAny.

(** ** One discovery round *)

Lemma countOf_zero f rs :
  countOf f rs = 0 <-> forall r, In r rs -> f r = false.
Proof.
  unfold countOf. induction rs as [|r rs IH]; simpl.
  - split; [intros _ ? [] | reflexivity].
  - destruct (f r) eqn:E; simpl.
    + split; [discriminate|]. intro H.
      specialize (H r (or_introl eq_refl)). congruence.
    + rewrite IH. split.
      * intros H r' [<-|Hin]; [assumption | apply H; assumption].
      * intros H r' Hin. apply H. right; assumption.
Qed.

Lemma countOf_pos f rs :
  1 <= countOf f rs -> exists r, In r rs /\ f r = true.
Proof.
  unfold countOf. induction rs as [|r rs IH]; simpl; [lia|].
  destruct (f r) eqn:E; simpl.
  - intros _. exists r. split; [left; reflexivity | assumption].
  - intro H. destruct (IH H) as [r' [Hin Hf]]. exists r'. split; [right|]; assumption.
Qed.

Lemma probeResults_In net r :
  In r (probeResults net) <-> exists q, In q portsToCheck /\ result (net q) = r.
Proof.
  unfold probeResults. rewrite in_map_iff.
  split; intros [q [H1 H2]]; exists q; split; assumption.
Qed.

Lemma requests_In net t s :
  In (t, s) (portDiscovery_requests net) <->
  exists q, In q portsToCheck /\ t = settledAt (net q)
            /\ s = probePromise (result (net q)).
Proof.
  unfold portDiscovery_requests, Dynamo_health. rewrite in_map_iff. split.
  - intros [q [E Hin]]. injection E as <- <-. exists q. repeat split; assumption.
  - intros [q [Hin [-> ->]]]. exists q. split; [reflexivity | assumption].
Qed.

Lemma probePromise_Resolved r a :
  probePromise r = Resolved a <-> r = Live (port a).
Proof.
  destruct r as [p| |code]; simpl; split; intro H; try discriminate.
  - injection H as <-. reflexivity.
  - injection H as ->. destruct a; reflexivity.
Qed.

Lemma probePromise_Thrown_503 r e :
  probePromise r = Thrown e -> status_is 503 e = isRejectedWith 503 r.
Proof.
  destruct r as [p| |code]; simpl; intro H; try discriminate;
    injection H as <-; reflexivity.
Qed.

Lemma afterRound_resolved net c a :
  Promise_any (portDiscovery_requests net) = AnyResolved a ->
  afterRound net c =
  {| state := withConnectionState CONNECTED (state c);
     dynamoPort := Some (port a) |}.
Proof.
  intro H. unfold afterRound, exec, portDiscovery, portDiscovery_start,
    portDiscovery_finish, bind, setDynamoPort, setState.
  simpl. rewrite H. reflexivity.
Qed.

Lemma afterRound_rejected net c errors :
  Promise_any (portDiscovery_requests net) = AggregateError errors ->
  afterRound net c =
  {| state :=
       withConnectionState
         (match find (status_is 503) errors with
          | Some _ => BLOCKED
          | None => NOT_CONNECTED
          end) (state c);
     dynamoPort := None |}.
Proof.
  intro H. unfold afterRound, exec, portDiscovery, portDiscovery_start,
    portDiscovery_finish, bind, setDynamoPort, setState.
  simpl. rewrite H. destruct (find (status_is 503) errors); reflexivity.
Qed.

(** With some probe live the round connects, to the port reported by a
    live probe that no other live probe settled before. *)
Lemma afterRound_some_live net c q p :
  In q portsToCheck -> result (net q) = Live p ->
  exists q0 p0,
    In q0 portsToCheck /\ result (net q0) = Live p0
    /\ (forall q' p', In q' portsToCheck -> result (net q') = Live p' ->
                      settledAt (net q0) <= settledAt (net q'))
    /\ afterRound net c =
       {| state := withConnectionState CONNECTED (state c);
          dynamoPort := Some p0 |}.
Proof.
  intros Hq Hlive.
  assert (Hin : In (settledAt (net q), Resolved {| port := p |})
                   (portDiscovery_requests net)).
  { apply requests_In. exists q. rewrite Hlive. repeat split; assumption. }
  destruct (Promise_any_resolved _ _ _ Hin) as [t0 [a0 [Hany [Hin0 Hmin]]]].
  apply requests_In in Hin0. destruct Hin0 as [q0 [Hq0 [-> Hres]]].
  symmetry in Hres. apply probePromise_Resolved in Hres.
  exists q0, (port a0). repeat split; try assumption.
  - intros q' p' Hq' Hlive'.
    apply (Hmin _ {| port := p' |}). apply requests_In.
    exists q'. rewrite Hlive'. repeat split; assumption.
  - apply afterRound_resolved. assumption.
Qed.

(** With no probe live the round is decided by the rejection reasons. *)
Lemma afterRound_none_live net c :
  countOf isLive (probeResults net) = 0 ->
  afterRound net c =
  {| state :=
       withConnectionState
         (if existsb (isRejectedWith 503) (probeResults net)
          then BLOCKED else NOT_CONNECTED) (state c);
     dynamoPort := None |}.
Proof.
  intro H0. rewrite countOf_zero in H0.
  assert (Hn : forall t a, ~ In (t, Resolved a) (portDiscovery_requests net)).
  { intros t a Hin. apply requests_In in Hin. destruct Hin as [q [Hq [_ Hres]]].
    symmetry in Hres. apply probePromise_Resolved in Hres.
    assert (isLive (result (net q)) = false).
    { apply H0. apply probeResults_In. exists q. split; [assumption|reflexivity]. }
    rewrite Hres in H. discriminate. }
  rewrite (afterRound_rejected net c _ (Promise_any_rejected _ Hn)).
  do 2 f_equal.
  destruct (existsb (isRejectedWith 503) (probeResults net)) eqn:Ex.
  - apply existsb_exists in Ex. destruct Ex as [r [Hin Hr]].
    apply probeResults_In in Hin. destruct Hin as [q [Hq <-]].
    destruct (find (status_is 503) (rejections (portDiscovery_requests net)))
      eqn:F; [reflexivity|].
    exfalso.
    destruct (probePromise (result (net q))) as [a|e] eqn:P.
    + apply probePromise_Resolved in P. rewrite P in Hr. discriminate.
    + assert (Hin : In e (rejections (portDiscovery_requests net))).
      { apply rejections_In. exists (settledAt (net q)). apply requests_In.
        exists q. repeat split; [assumption | symmetry; assumption]. }
      pose proof (find_none _ _ F e Hin) as Hf.
      rewrite (probePromise_Thrown_503 _ _ P) in Hf. congruence.
  - destruct (find (status_is 503) (rejections (portDiscovery_requests net)))
      as [e|] eqn:F; [|reflexivity].
    exfalso. apply find_some in F. destruct F as [Hin He].
    apply rejections_In in Hin. destruct Hin as [t Hin].
    apply requests_In in Hin. destruct Hin as [q [Hq [_ P]]]. symmetry in P.
    rewrite (probePromise_Thrown_503 _ _ P) in He.
    assert (existsb (isRejectedWith 503) (probeResults net) = true).
    { apply existsb_exists. exists (result (net q)). split; [|assumption].
      apply probeResults_In. exists q. split; [assumption|reflexivity]. }
    congruence.
Qed.

(** C6. A round in which exactly one probe returns [Live p] and every other
    probe returns [Unreachable] ends in [CONNECTED] with the port set to
    [p]; the candidates are the ten ports 55100..55109 and a request is
    issued to each of them before any is awaited. *)
Theorem discovery_single_live_connects (net : Z -> Probe) (c : Connector) (q p : Z) :
  In q portsToCheck ->
  result (net q) = Live p ->
  (forall q', In q' portsToCheck -> q' <> q -> result (net q') = Unreachable) ->
  connectionState (state (afterRound net c)) = CONNECTED
  /\ dynamoPort (afterRound net c) = Some p
  /\ portsToCheck =
     [55100; 55101; 55102; 55103; 55104; 55105; 55106; 55107; 55108; 55109]%Z
  /\ map fst (portDiscovery_requests net) = map (fun q' => settledAt (net q')) portsToCheck.
Proof.
  intros Hq Hlive Hothers.
  destruct (afterRound_some_live net c q p Hq Hlive)
    as [q0 [p0 [Hq0 [Hlive0 [_ Hafter]]]]].
  assert (q0 = q).
  { destruct (Z.eq_dec q0 q) as [E|ne]; [assumption|].
    rewrite (Hothers q0 Hq0 ne) in Hlive0. discriminate. }
  subst q0. rewrite Hlive in Hlive0. injection Hlive0 as <-.
  rewrite Hafter. simpl. repeat split.
Qed.

Lemma discovery_single_live_connects_witness :
  connectionState (state (afterRound oneInstance initialConnector)) = CONNECTED
  /\ dynamoPort (afterRound oneInstance initialConnector) = Some 55103%Z.
Proof.
  pose proof (discovery_single_live_connects oneInstance initialConnector
                55103%Z 55103%Z) as H.
  destruct H as [H1 [H2 _]].
  - vm_compute. tauto.
  - reflexivity.
  - intros q' Hin ne. vm_compute in Hin.
    repeat (destruct Hin as [<-|Hin]; [try reflexivity; exfalso; apply ne; reflexivity|]).
    destruct Hin.
  - split; assumption.
Defined.

(** C5. A round in which no probe is live ends in [BLOCKED] when at least
    one probe returned [Rejected 503], and in [NOT_CONNECTED] when no probe
    returned [Rejected] at all. *)
Theorem discovery_none_live_blocked_or_not_connected (net : Z -> Probe) (c : Connector) :
  countOf isLive (probeResults net) = 0 ->
  (1 <= countOf (isRejectedWith 503) (probeResults net) ->
   connectionState (state (afterRound net c)) = BLOCKED)
  /\ (countOf isRejected (probeResults net) = 0 ->
      connectionState (state (afterRound net c)) = NOT_CONNECTED).
Proof.
  intro H0. rewrite (afterRound_none_live net c H0). cbn [state connectionState withConnectionState dynamoPort]. split.
  - intro H. apply countOf_pos in H.
    assert (E : existsb (isRejectedWith 503) (probeResults net) = true)
      by (apply existsb_exists; assumption).
    rewrite E. reflexivity.
  - intro H. rewrite countOf_zero in H.
    destruct (existsb (isRejectedWith 503) (probeResults net)) eqn:E; [|reflexivity].
    apply existsb_exists in E. destruct E as [r [Hin Hr]].
    specialize (H r Hin). destruct r; simpl in *; discriminate.
Qed.

Lemma discovery_none_live_witness :
  connectionState (state (afterRound busyInstance (connectedAt 55103))) = BLOCKED
  /\ connectionState (state (afterRound nobodyHome (connectedAt 55103))) = NOT_CONNECTED.
Proof.
  split.
  - apply (discovery_none_live_blocked_or_not_connected busyInstance (connectedAt 55103)).
    + reflexivity.
    + vm_compute. lia.
  - apply (discovery_none_live_blocked_or_not_connected nobodyHome (connectedAt 55103)).
    + reflexivity.
    + reflexivity.
Defined.

(** C2, as stated, fails: with two live probes the round ends in
    [CONNECTED] on one of the two ports. *)
Lemma discovery_two_live_counterexample :
  2 <= countOf isLive (probeResults twoInstances)
  /\ ~ (connectionState (state (afterRound twoInstances initialConnector))
          = MULTIPLE_CONNECTIONS
        /\ dynamoPort (afterRound twoInstances initialConnector) = None).
Proof.
  split.
  - vm_compute. lia.
  - intros [H _]. vm_compute in H. discriminate.
Qed.

(** C2, amended. A round in which two or more probes are live ends in
    [CONNECTED] with the port reported by the live probe that settled
    first; no round ends in [MULTIPLE_CONNECTIONS]. *)
Theorem discovery_several_live_first_wins (net : Z -> Probe) (c : Connector) :
  (2 <= countOf isLive (probeResults net) ->
   connectionState (state (afterRound net c)) = CONNECTED
   /\ exists q p,
        In q portsToCheck /\ result (net q) = Live p
        /\ (forall q' p', In q' portsToCheck -> result (net q') = Live p' ->
                          settledAt (net q) <= settledAt (net q'))
        /\ dynamoPort (afterRound net c) = Some p)
  /\ connectionState (state (afterRound net c)) <> MULTIPLE_CONNECTIONS.
Proof.
  split.
  - intro H.
    assert (H1 : 1 <= countOf isLive (probeResults net)) by lia.
    apply countOf_pos in H1. destruct H1 as [r [Hin Hr]].
    apply probeResults_In in Hin. destruct Hin as [q [Hq <-]].
    destruct (result (net q)) as [p| |code] eqn:E; try discriminate.
    destruct (afterRound_some_live net c q p Hq E)
      as [q0 [p0 [Hq0 [Hlive0 [Hmin Hafter]]]]].
    rewrite Hafter. cbn [state connectionState withConnectionState dynamoPort]. split; [reflexivity|].
    exists q0, p0. repeat split; assumption.
  - destruct (countOf isLive (probeResults net)) as [|n] eqn:E.
    + rewrite (afterRound_none_live net c E).
      cbn [state connectionState withConnectionState dynamoPort].
      destruct (existsb _ _); discriminate.
    + assert (H1 : 1 <= countOf isLive (probeResults net)) by lia.
      apply countOf_pos in H1. destruct H1 as [r [Hin Hr]].
      apply probeResults_In in Hin. destruct Hin as [q [Hq <-]].
      destruct (result (net q)) as [p| |code] eqn:E'; try discriminate.
      destruct (afterRound_some_live net c q p Hq E')
        as [q0 [p0 [_ [_ [_ Hafter]]]]].
      rewrite Hafter. cbn [state connectionState withConnectionState dynamoPort].
      discriminate.
Qed.

Lemma discovery_several_live_witness :
  connectionState (state (afterRound twoInstances initialConnector)) = CONNECTED
  /\ exists q p,
       In q portsToCheck /\ result (twoInstances q) = Live p
       /\ (forall q' p', In q' portsToCheck -> result (twoInstances q') = Live p' ->
                         settledAt (twoInstances q) <= settledAt (twoInstances q'))
       /\ dynamoPort (afterRound twoInstances initialConnector) = Some p.
Proof.
  apply (proj1 (discovery_several_live_first_wins twoInstances initialConnector)).
  vm_compute. lia.
Defined.

(** ** The service facade *)

Section Facade.
Variable newDynamo : string -> Dynamo.
Variable net : Z -> Probe.
Variable rendered : Connector.

Let svc : DynamoService := dynamoLocalService newDynamo net rendered.
Let dynamo : Dynamo := newDynamo (getDynamoUrl rendered).

Lemma isNotTrusted_iff e :
  isNotTrusted e = true <->
  status e = Some 500%Z /\ message e = "Graph is not trusted.".
Proof.
  unfold isNotTrusted, status_is. rewrite andb_true_iff, String.eqb_eq.
  destruct (status e) as [s|].
  - rewrite Z.eqb_eq. split; intros [H1 H2]; split; congruence.
  - split; intros [H1 H2]; discriminate.
Qed.

Local Ltac settle_request :=
  match goal with
  | |- context [dynamo_folder dynamo ?p] => destruct (dynamo_folder dynamo p) as [a|e]
  | |- context [dynamo_info dynamo ?t] => destruct (dynamo_info dynamo t) as [a|e]
  | |- context [dynamo_run dynamo ?t ?i] => destruct (dynamo_run dynamo t i) as [a|e]
  | |- context [dynamo_trust dynamo ?p] => destruct (dynamo_trust dynamo p) as [a|e]
  | |- context [dynamo_serverInfo dynamo] => destruct (dynamo_serverInfo dynamo) as [a|e]
  | |- context [Dynamo_health net ?p] => destruct (snd (Dynamo_health net p)) as [a|e]
  end.

Local Ltac open_call :=
  cbn -[Dynamo_health isNotTrusted getDynamoUrl];
  unfold forgetValue, catch, await, lostConnection, bind, throw, setState, ret;
  fold dynamo.

(** A call hands the caller the failure of its request, untouched. *)
Lemma perform_reraises call c :
  failure (outcome (perform svc call) c) = requestFailure dynamo net call.
Proof.
  unfold outcome.
  destruct call; open_call; settle_request; try reflexivity.
  cbn -[isNotTrusted]. destruct (isNotTrusted e); reflexivity.
Qed.

(** What a call does to the hook cells. *)
Lemma perform_store call c :
  exec (perform svc call) c =
  match requestFailure dynamo net call with
  | Some e =>
      if hasErrorFeedback call && negb (exempt call e) then demoted c else c
  | None => c
  end.
Proof.
  unfold exec. destruct c as [st dp].
  destruct call; open_call; settle_request; try reflexivity.
  cbn -[isNotTrusted]. destruct (isNotTrusted e); reflexivity.
Qed.

End Facade.

(** The operations with a [catch] handler demote the state on every
    failure that is not exempt, and hand the failure on. *)
Lemma perform_feedback newDynamo net rendered call e c :
  requestFailure (newDynamo (getDynamoUrl rendered)) net call = Some e ->
  hasErrorFeedback call = true ->
  exempt call e = false ->
  failure (outcome (perform (dynamoLocalService newDynamo net rendered) call) c) = Some e
  /\ exec (perform (dynamoLocalService newDynamo net rendered) call) c = demoted c.
Proof.
  intros Hreq Hfb Hex. rewrite perform_reraises, perform_store, Hreq, Hfb, Hex.
  split; reflexivity.
Qed.

(** C1. At a failing input the claim and the code part ways: with the
    service gone, [serverInfo] (also as handed out through the queued
    service) and [current] re-raise the connection failure but leave the
    state [CONNECTED], where the sibling [folder] sets [LOST_CONNECTION]. *)
Theorem serverInfo_failure_leaves_state_connected :
  let c := connectedAt 55103 in
  let svc := dynamoLocalService goneDynamo nobodyHome c in
  serverInfo svc c = (Thrown connectionRefused, c)
  /\ thunk (queued_serverInfo (queuedDynamoLocalService svc)) c
     = (Thrown connectionRefused, c)
  /\ current svc c = (Thrown connectionRefused, c)
  /\ folder svc "/graphs" c = (Thrown connectionRefused, demoted c)
  /\ connectionState (state c) = CONNECTED
  /\ connectionState (state (demoted c)) = LOST_CONNECTION.
Proof. repeat split. Qed.

(** C4. When [info] fails, the failure is re-raised as it is; if it is the
    not-trusted failure (status 500, message "Graph is not trusted.") the
    hook cells are left exactly as they were, and every other failure sets
    the state to [LOST_CONNECTION]. *)
Theorem info_not_trusted_is_exempt newDynamo net rendered target e c :
  dynamo_info (newDynamo (getDynamoUrl rendered)) target = Thrown e ->
  outcome (info (dynamoLocalService newDynamo net rendered) target) c = Thrown e
  /\ (status e = Some 500%Z /\ message e = "Graph is not trusted." ->
      exec (info (dynamoLocalService newDynamo net rendered) target) c = c)
  /\ (~ (status e = Some 500%Z /\ message e = "Graph is not trusted.") ->
      connectionState
        (state (exec (info (dynamoLocalService newDynamo net rendered) target) c))
      = LOST_CONNECTION).
Proof.
  intro Hreq.
  unfold outcome, exec. cbn -[isNotTrusted getDynamoUrl].
  unfold catch, await. rewrite Hreq.
  unfold bind, throw, setState, ret.
  destruct (isNotTrusted e) eqn:E; cbn.
  - split; [reflexivity|]. split.
    + intros _. destruct c; reflexivity.
    + intro Hn. exfalso. apply Hn. apply isNotTrusted_iff. assumption.
  - split; [reflexivity|]. split.
    + intro Hy. apply isNotTrusted_iff in Hy. congruence.
    + intros _. reflexivity.
Qed.

Lemma info_not_trusted_is_exempt_witness :
  outcome (info (dynamoLocalService waryDynamo oneInstance (connectedAt 55103))
             (PathGraphTarget "tower.dyn")) (connectedAt 55103)
  = Thrown notTrusted
  /\ exec (info (dynamoLocalService waryDynamo oneInstance (connectedAt 55103))
             (PathGraphTarget "tower.dyn")) (connectedAt 55103)
     = connectedAt 55103
  /\ connectionState
       (state (exec (info (dynamoLocalService goneDynamo nobodyHome (connectedAt 55103))
                       CurrentGraphTarget) (connectedAt 55103)))
     = LOST_CONNECTION.
Proof.
  pose proof (info_not_trusted_is_exempt waryDynamo oneInstance (connectedAt 55103)
                (PathGraphTarget "tower.dyn") notTrusted (connectedAt 55103)
                eq_refl) as [H1 [H2 _]].
  pose proof (info_not_trusted_is_exempt goneDynamo nobodyHome (connectedAt 55103)
                CurrentGraphTarget connectionRefused (connectedAt 55103)
                eq_refl) as [_ [_ H3]].
  split; [exact H1|]. split.
  - apply H2. split; reflexivity.
  - apply H3. intros [Hs _]. discriminate Hs.
Defined.

(** C7, as stated, fails: after [run] fails against a service that has
    gone away the state is [LOST_CONNECTION] and the port is still set. *)
Lemma endpoint_outlives_demotion_counterexample :
  let c := exec (run (dynamoLocalService goneDynamo nobodyHome (connectedAt 55103))
                   CurrentGraphTarget "{}") (connectedAt 55103) in
  connectionState (state c) <> CONNECTED /\ dynamoPort c <> None.
Proof. split; vm_compute; discriminate. Qed.

(** ** Effects and the interval timer *)

Lemma elapse_add a : forall b w, elapse (a + b) w = elapse b (elapse a w).
Proof.
  induction a as [|a IH]; intros b w; simpl; [reflexivity | apply IH].
Qed.

Lemma tick_idle w :
  intervalId w = None ->
  tick w = {| hook := hook w; intervalId := None; clock := S (clock w);
              roundStarts := roundStarts w; inflight := inflight w |}.
Proof. intro H. unfold tick. rewrite H. reflexivity. Qed.

Lemma tick_waiting w d r :
  intervalId w = Some {| delay := d; remaining := r |} -> 2 <= r ->
  tick w = {| hook := hook w;
              intervalId := Some {| delay := d; remaining := r - 1 |};
              clock := S (clock w);
              roundStarts := roundStarts w; inflight := inflight w |}.
Proof.
  intros H Hr. unfold tick. rewrite H. cbn [remaining delay].
  destruct (r <=? 1)%nat eqn:E; [apply Nat.leb_le in E; lia | reflexivity].
Qed.

Lemma tick_fires w d :
  intervalId w = Some {| delay := d; remaining := 1 |} ->
  tick w = {| hook := exec portDiscovery_start (hook w);
              intervalId := Some {| delay := d; remaining := d |};
              clock := S (clock w);
              roundStarts := roundStarts w ++ [S (clock w)];
              inflight := S (inflight w) |}.
Proof. intro H. unfold tick. rewrite H. reflexivity. Qed.

(** Without an interval, time passes and nothing else happens. *)
Lemma elapse_idle t : forall w,
  intervalId w = None ->
  elapse t w = {| hook := hook w; intervalId := None; clock := clock w + t;
                  roundStarts := roundStarts w; inflight := inflight w |}.
Proof.
  induction t as [|t IH]; intros w H.
  - simpl. rewrite Nat.add_0_r. destruct w; simpl in *; subst; reflexivity.
  - simpl. rewrite (tick_idle w H). rewrite IH by reflexivity.
    cbn [hook clock roundStarts inflight]. f_equal. lia.
Qed.

(** Until the interval runs out it only counts down. *)
Lemma elapse_waiting t : forall w d r,
  intervalId w = Some {| delay := d; remaining := r |} -> t < r ->
  elapse t w = {| hook := hook w;
                  intervalId := Some {| delay := d; remaining := r - t |};
                  clock := clock w + t;
                  roundStarts := roundStarts w; inflight := inflight w |}.
Proof.
  induction t as [|t IH]; intros w d r H Ht.
  - simpl. rewrite Nat.add_0_r, Nat.sub_0_r.
    destruct w; simpl in *; subst; reflexivity.
  - simpl. rewrite (tick_waiting w d r H) by lia.
    rewrite (IH _ d (r - 1)) by (first [reflexivity | lia]).
    cbn [hook clock roundStarts inflight]. f_equal; [f_equal; f_equal; lia | lia].
Qed.

(** When it runs out, [portDiscovery] is called and it starts over. *)
Lemma elapse_fires w d r :
  intervalId w = Some {| delay := d; remaining := r |} -> 1 <= r ->
  elapse r w = {| hook := exec portDiscovery_start (hook w);
                  intervalId := Some {| delay := d; remaining := d |};
                  clock := clock w + r;
                  roundStarts := roundStarts w ++ [clock w + r];
                  inflight := S (inflight w) |}.
Proof.
  intros H Hr.
  replace r with ((r - 1) + 1) at 1 by lia.
  rewrite elapse_add, (elapse_waiting (r - 1) w d r H) by lia.
  replace (r - (r - 1)) with 1 by lia.
  change (elapse 1 ?x) with (tick x).
  rewrite (tick_fires _ d) by reflexivity.
  cbn [hook clock roundStarts inflight].
  replace (S (clock w + (r - 1))) with (clock w + r) by lia. reflexivity.
Qed.

Lemma startRound_state w : state (hook (startRound w)) = state (hook w).
Proof. reflexivity. Qed.



Lemma timerEffect_polling cs :
  In cs pollingStates -> timerEffect cs = Some 2000 /\ initEffect cs = false.
Proof.
  unfold pollingStates. intros [<-|[<-|[<-|[<-|[]]]]]; split; reflexivity.
Qed.

(** A render that changed the connection state re-runs both effects. *)
Lemma commit_changed {A} (m : Hook A) w :
  connectionState (state (exec m (hook w))) <> connectionOf w ->
  commit m w =
  applyEffects {| hook := exec m (hook w); intervalId := intervalId w;
                  clock := clock w; roundStarts := roundStarts w;
                  inflight := inflight w |}.
Proof.
  intro H. unfold commit, afterRender.
  rewrite state_eqb_neq; [reflexivity|].
  intro E. apply H. symmetry. exact E.
Qed.

Lemma connectionOf_applyEffects w : connectionOf (applyEffects w) = connectionOf w.
Proof.
  unfold applyEffects, connectionOf. cbn [hook].
  destruct (initEffect _); reflexivity.
Qed.

Lemma connectionOf_commit {A} (m : Hook A) w :
  connectionOf (commit m w) = connectionState (state (exec m (hook w))).
Proof.
  unfold commit, afterRender. destruct (state_eqb _ _); [reflexivity|].
  rewrite connectionOf_applyEffects. reflexivity.
Qed.

Lemma state_commit {A} (m : Hook A) w :
  state (hook (commit m w)) = state (exec m (hook w)).
Proof.
  unfold commit, afterRender. destruct (state_eqb _ _); [reflexivity|].
  unfold applyEffects. cbn [hook]. destruct (initEffect _); reflexivity.
Qed.

(** A round never ends in [LOST_CONNECTION], [MULTIPLE_CONNECTIONS] or
    [INIT]. *)
Lemma finish_connection net c :
  In (connectionState (state (exec (portDiscovery_finish net) c)))
     [CONNECTED; BLOCKED; NOT_CONNECTED].
Proof.
  unfold exec, portDiscovery_finish.
  destruct (Promise_any (portDiscovery_requests net)) as [a|errors].
  - left; reflexivity.
  - destruct (find (status_is 503) errors); cbn; auto.
Qed.

Lemma applyEffects_polling w :
  In (connectionOf w) pollingStates ->
  applyEffects w =
  {| hook := hook w;
     intervalId := Some {| delay := 2000; remaining := 2000 |};
     clock := clock w; roundStarts := roundStarts w; inflight := inflight w |}.
Proof.
  intro H. apply timerEffect_polling in H. destruct H as [Ht Hi].
  unfold applyEffects. rewrite Ht, Hi. reflexivity.
Qed.

Lemma applyEffects_connected w :
  connectionOf w = CONNECTED ->
  applyEffects w =
  {| hook := hook w; intervalId := None;
     clock := clock w; roundStarts := roundStarts w; inflight := inflight w |}.
Proof. intro H. unfold applyEffects. rewrite H. reflexivity. Qed.

Lemma applyEffects_init w :
  connectionOf w = INIT ->
  applyEffects w =
  {| hook := exec portDiscovery_start (hook w); intervalId := None;
     clock := clock w; roundStarts := roundStarts w ++ [clock w];
     inflight := S (inflight w) |}.
Proof. intro H. unfold applyEffects. rewrite H. reflexivity. Qed.

Lemma tick_state w : state (hook (tick w)) = state (hook w).
Proof.
  unfold tick. destruct (intervalId w) as [iv|]; [|reflexivity].
  destruct (remaining iv <=? 1); reflexivity.
Qed.

Lemma elapse_state ms : forall w, state (hook (elapse ms w)) = state (hook w).
Proof.
  induction ms as [|ms IH]; intro w; simpl; [reflexivity|].
  rewrite IH. apply tick_state.
Qed.

(** The schedule after the demotion of the scenario, spelled out. *)
Example polling_after_demotion :
  roundStarts lostWorld
  ++ map (fun i => clock lostWorld + 2000 * i) (seq 1 (4500 / 2000))
  = [0; 2000; 4000].
Proof. vm_compute. reflexivity. Qed.

(** C3, as stated, fails: the failing [run] demotes the connected hook to
    [LOST_CONNECTION] and no call of [portDiscovery] is made on the spot. *)
Lemma demotion_starts_no_round_counterexample :
  connectionOf connectedWorld = CONNECTED
  /\ connectionOf (happen failingRun connectedWorld) = LOST_CONNECTION
  /\ roundsStartedBy failingRun connectedWorld <> 1.
Proof. repeat split. vm_compute. discriminate. Qed.

(** C3, amended. When a facade call demotes the state to
    [LOST_CONNECTION], no round starts at that instant: the demotion
    installs the 2000 ms interval, no round starts before it runs out, one
    round starts when it does, and whatever that round finds replaces
    [LOST_CONNECTION]. *)
Theorem demotion_waits_for_timer newDynamo net rendered call (w : World) :
  let h := CallSettles unit (perform (dynamoLocalService newDynamo net rendered) call) in
  connectionOf w <> LOST_CONNECTION ->
  connectionOf (happen h w) = LOST_CONNECTION ->
  roundsStartedBy h w = 0
  /\ intervalId (happen h w) = Some {| delay := 2000; remaining := 2000 |}
  /\ (forall t, t < 2000 -> roundStarts (elapse t (happen h w)) = roundStarts w)
  /\ roundStarts (elapse 2000 (happen h w)) = roundStarts w ++ [clock w + 2000]
  /\ (forall net',
        In (connectionOf (roundSettles net' (elapse 2000 (happen h w))))
           [CONNECTED; BLOCKED; NOT_CONNECTED]).
Proof.
  intros h Hbefore Hafter.
  set (m := perform (dynamoLocalService newDynamo net rendered) call) in *.
  assert (Hlost : connectionState (state (exec m (hook w))) = LOST_CONNECTION).
  { rewrite <- (connectionOf_commit m w). exact Hafter. }
  assert (Hw : happen h w =
               {| hook := exec m (hook w);
                  intervalId := Some {| delay := 2000; remaining := 2000 |};
                  clock := clock w; roundStarts := roundStarts w;
                  inflight := inflight w |}).
  { unfold h, happen. rewrite commit_changed.
    - rewrite applyEffects_polling; [reflexivity|].
      unfold connectionOf, pollingStates. cbn [hook]. rewrite Hlost.
      right; right; right; left; reflexivity.
    - rewrite Hlost. intro E. apply Hbefore. symmetry. exact E. }
  set (w' := happen h w) in *.
  assert (Hi : intervalId w' = Some {| delay := 2000; remaining := 2000 |})
    by (rewrite Hw; reflexivity).
  assert (Hr : roundStarts w' = roundStarts w) by (rewrite Hw; reflexivity).
  assert (Hc : clock w' = clock w) by (rewrite Hw; reflexivity).
  assert (Hpos : 1 <= 2000) by (apply Nat.lt_0_succ).
  split; [unfold roundsStartedBy; fold w'; rewrite Hr; apply Nat.sub_diag|].
  split; [exact Hi|].
  split; [|split].
  - intros t Ht. rewrite (elapse_waiting t w' 2000 2000 Hi Ht). exact Hr.
  - rewrite (elapse_fires w' 2000 2000 Hi Hpos). cbn [roundStarts].
    rewrite Hr, Hc. reflexivity.
  - intro net'. rewrite (elapse_fires w' 2000 2000 Hi Hpos).
    unfold roundSettles. cbn [inflight].
    rewrite connectionOf_commit. apply finish_connection.
Qed.

Lemma demotion_waits_for_timer_witness :
  roundsStartedBy failingRun connectedWorld = 0
  /\ roundStarts (elapse 1999 lostWorld) = roundStarts connectedWorld
  /\ roundStarts (elapse 2000 lostWorld)
     = roundStarts connectedWorld ++ [clock connectedWorld + 2000].
Proof.
  destruct (demotion_waits_for_timer goneDynamo nobodyHome (hook connectedWorld)
              (CallRun CurrentGraphTarget "{}") connectedWorld)
    as [H1 [_ [H2 [H3 _]]]].
  - vm_compute. discriminate.
  - reflexivity.
  - split; [exact H1|]. split.
    + apply H2. apply Nat.lt_succ_diag_r.
    + exact H3.
Defined.

(** The scenario of the spec: the instance on 55103 is found, a [run]
    finds it gone, and the first new round starts 2000 ms later. *)
Example rounds_after_demotion :
  roundStarts connectedWorld = [0]
  /\ connectionOf lostWorld = LOST_CONNECTION
  /\ roundStarts (elapse 1999 lostWorld) = [0]
  /\ roundStarts (elapse 2000 lostWorld) = [0; 2000]
  /\ connectionOf (roundSettles nobodyHome (elapse 2000 lostWorld)) = NOT_CONNECTED.
Proof. repeat split; vm_compute; reflexivity. Qed.

(** C10. Every update of the connection state leaves [currentOpenGraph] as
    it was: the start, the end and the whole of a discovery round, every
    facade call, and, for the mounted hook, the passing of time, a round
    settling, a manual reconnect and a facade call settling. *)
Theorem connection_updates_keep_open_graph newDynamo net rendered call c (w : World) ms :
  currentOpenGraph (state (exec portDiscovery_start c)) = currentOpenGraph (state c)
  /\ currentOpenGraph (state (exec (portDiscovery_finish net) c))
     = currentOpenGraph (state c)
  /\ currentOpenGraph (state (afterRound net c)) = currentOpenGraph (state c)
  /\ currentOpenGraph
       (state (exec (perform (dynamoLocalService newDynamo net rendered) call) c))
     = currentOpenGraph (state c)
  /\ currentOpenGraph (state (hook (happen (Elapse ms) w)))
     = currentOpenGraph (state (hook w))
  /\ currentOpenGraph (state (hook (happen (RoundSettles net) w)))
     = currentOpenGraph (state (hook w))
  /\ currentOpenGraph (state (hook (happen Reconnect w)))
     = currentOpenGraph (state (hook w))
  /\ currentOpenGraph
       (state (hook (happen
          (CallSettles unit (perform (dynamoLocalService newDynamo net rendered) call)) w)))
     = currentOpenGraph (state (hook w)).
Proof.
  assert (Hfinish : forall c',
    currentOpenGraph (state (exec (portDiscovery_finish net) c'))
    = currentOpenGraph (state c')).
  { intro c'. unfold exec, portDiscovery_finish.
    destruct (Promise_any (portDiscovery_requests net)) as [a|errors];
      [reflexivity|].
    destruct (find (status_is 503) errors); reflexivity. }
  assert (Hcall : forall c',
    currentOpenGraph
      (state (exec (perform (dynamoLocalService newDynamo net rendered) call) c'))
    = currentOpenGraph (state c')).
  { intro c'. rewrite perform_store.
    destruct (requestFailure _ net call) as [e|]; [|reflexivity].
    destruct (hasErrorFeedback call && negb (exempt call e)); reflexivity. }
  split; [reflexivity|]. split; [apply Hfinish|]. split.
  { unfold afterRound, portDiscovery, portDiscovery_start.
    change (exec (setDynamoPort None ;; portDiscovery_finish net)%hook c)
      with (exec (portDiscovery_finish net) (exec (setDynamoPort None) c)).
    rewrite Hfinish. reflexivity. }
  split; [apply Hcall|]. split.
  { cbn [happen]. rewrite elapse_state. reflexivity. }
  split.
  { cbn [happen]. unfold roundSettles. destruct (inflight w); [reflexivity|].
    rewrite state_commit. cbn [hook]. apply Hfinish. }
  split; [reflexivity|].
  cbn [happen]. rewrite state_commit. apply Hcall.
Qed.

(** ** The serial request queue *)

Module PromiseQueueFacts.
Import PromiseQueue.

Lemma serial_app tasks1 : forall first tasks2 c,
  serial first (tasks1 ++ tasks2) c =
  let (events1, c1) := serial first tasks1 c in
  let (events2, c2) := serial (first + List.length tasks1) tasks2 c1 in
  (events1 ++ events2, c2).
Proof.
  induction tasks1 as [|task tasks1 IH]; intros first tasks2 c; simpl.
  - rewrite Nat.add_0_r. destruct (serial first tasks2 c); reflexivity.
  - destruct (thunk task c) as [r c'].
    rewrite IH. destruct (serial (S first) tasks1 c') as [events1 c1].
    replace (first + S (List.length tasks1)) with (S first + List.length tasks1) by lia.
    destruct (serial (S first + List.length tasks1) tasks2 c1); reflexivity.
Qed.

Lemma serial_length tasks : forall first c,
  List.length (fst (serial first tasks c)) = 2 * List.length tasks.
Proof.
  induction tasks as [|task tasks IH]; intros first c; simpl; [reflexivity|].
  destruct (thunk task c) as [r c'].
  specialize (IH (S first) c'). destruct (serial (S first) tasks c'); simpl in *.
  lia.
Qed.

(** In the serial run the event at position [2k] is the start of ticket
    [first + k] and the one at [2k + 1] its end. *)
Lemma serial_event tasks : forall first c p e,
  nth_error (fst (serial first tasks c)) p = Some e ->
  exists k, ticketOf e = first + k
            /\ ((p = 2 * k /\ isStarted e = true)
                \/ (p = 2 * k + 1 /\ isStarted e = false)).
Proof.
  induction tasks as [|task tasks IH]; intros first c p e H; simpl in H.
  - destruct p; discriminate.
  - destruct (thunk task c) as [r c'].
    specialize (IH (S first) c').
    destruct (serial (S first) tasks c') as [events c'']. simpl in *.
    destruct p as [|[|p]]; simpl in H.
    + injection H as <-. exists 0. simpl. split; [lia | left; split; reflexivity].
    + injection H as <-. exists 0. simpl. split; [lia | right; split; reflexivity].
    + destruct (IH p e H) as [k [Ht Hp]]. exists (S k). split; [lia|].
      destruct Hp as [[-> Hs]|[-> Hs]]; [left | right]; split; try assumption; lia.
Qed.

Lemma serial_finished tasks : forall first c k,
  k < List.length tasks ->
  exists name ok,
    nth_error (fst (serial first tasks c)) (2 * k + 1)
    = Some (Finished (first + k) name ok).
Proof.
  induction tasks as [|task tasks IH]; intros first c k Hk;
    cbn [List.length] in Hk; [lia|].
  cbn [serial]. destruct (thunk task c) as [r c'].
  specialize (IH (S first) c').
  destruct (serial (S first) tasks c') as [events c'']. cbn [fst] in *.
  destruct k as [|k].
  - exists (label task), (isResolved r). rewrite Nat.add_0_r. reflexivity.
  - destruct (IH k) as [name [ok H]]; [lia|]. exists name, ok.
    replace (2 * S k + 1) with (S (S (2 * k + 1))) by lia. cbn [nth_error].
    replace (first + S k) with (S first + k) by lia. exact H.
Qed.

Lemma ticketed_app first tasks task :
  ticketed first (tasks ++ [task])
  = ticketed first tasks ++ [(first + List.length tasks, task)].
Proof.
  unfold ticketed. revert first.
  induction tasks as [|t tasks IH]; intro first; simpl.
  - rewrite Nat.add_0_r. reflexivity.
  - f_equal. rewrite IH. do 3 f_equal. lia.
Qed.

Lemma ticketed_length first tasks :
  List.length (ticketed first tasks) = List.length tasks.
Proof.
  unfold ticketed. rewrite length_combine, length_seq. apply Nat.min_id.
Qed.

Lemma shape_idle_intro c0 tasks events c q :
  serial 0 tasks c0 = (events, c) ->
  q = {| running := None; pending := []; submitted := List.length tasks |} ->
  Shape c0 tasks {| queue := q; store := c; log := events |}.
Proof. intros H ->. constructor. assumption. Qed.

Lemma shape_busy_intro c0 tasks settled task waiting events c q l :
  tasks = settled ++ task :: waiting ->
  serial 0 settled c0 = (events, c) ->
  q = {| running := Some (List.length settled, task);
         pending := ticketed (S (List.length settled)) waiting;
         submitted := List.length tasks |} ->
  l = events ++ [Started (List.length settled) (label task)] ->
  Shape c0 tasks {| queue := q; store := c; log := l |}.
Proof. intros H1 H2 -> ->. econstructor; eassumption. Qed.

Lemma shape_start c0 : Shape c0 [] (start c0).
Proof. apply (ShapeIdle c0 [] [] c0). reflexivity. Qed.

(** Submitting a task keeps the shape, with the task added last. *)
Lemma shape_enqueue c0 tasks s task :
  Shape c0 tasks s -> Shape c0 (tasks ++ [task]) (enqueue task s).
Proof.
  intros [events c H | settled t waiting events c Htasks H].
  - unfold enqueue, dispatch. cbn.
    apply (shape_busy_intro c0 _ tasks task [] events c); try reflexivity.
    + assumption.
    + rewrite length_app. cbn. f_equal. lia.
  - unfold enqueue, dispatch. cbn.
    apply (shape_busy_intro c0 _ settled t (waiting ++ [task]) events c);
      try reflexivity.
    + rewrite Htasks, <- app_assoc. reflexivity.
    + assumption.
    + rewrite ticketed_app, !length_app. f_equal.
      * do 3 f_equal. rewrite Htasks, length_app. cbn. lia.
      * cbn. lia.
Qed.

(** A settling task, failed or not, keeps the shape and shortens the
    backlog by one. *)
Lemma shape_settle c0 tasks s :
  Shape c0 tasks s ->
  Shape c0 tasks (settle s) /\ backlog (settle s) = backlog s - 1.
Proof.
  intros [events c H | settled t waiting events c Htasks H].
  - split; [constructor; assumption | reflexivity].
  - unfold settle. cbn [queue running store pending submitted log].
    destruct (thunk t c) as [r c'] eqn:Hthunk.
    assert (Hdone : serial 0 (settled ++ [t]) c0
                    = (events ++ [Started (List.length settled) (label t);
                                  Finished (List.length settled) (label t)
                                    (isResolved r)], c')).
    { rewrite serial_app, H. cbn. rewrite Hthunk. reflexivity. }
    destruct waiting as [|t2 rest].
    + unfold dispatch, backlog. cbn. split; [|reflexivity].
      apply shape_idle_intro; [|reflexivity].
      rewrite Htasks, <- app_assoc. exact Hdone.
    + unfold dispatch, backlog. cbn. split.
      * apply (shape_busy_intro c0 _ (settled ++ [t]) t2 rest
                 (events ++ [Started (List.length settled) (label t);
                             Finished (List.length settled) (label t)
                               (isResolved r)]) c').
        -- rewrite Htasks, <- app_assoc. reflexivity.
        -- exact Hdone.
        -- rewrite length_app. cbn. rewrite Nat.add_1_r. reflexivity.
        -- rewrite length_app. cbn. rewrite Nat.add_1_r, <- !app_assoc.
           reflexivity.
      * unfold ticketed. rewrite !length_combine, !length_seq, !Nat.min_id. lia.
Qed.

Lemma run_app cmds1 cmds2 s : run (cmds1 ++ cmds2) s = run cmds2 (run cmds1 s).
Proof. unfold run. apply fold_left_app. Qed.

(** Whatever the interleaving of submissions and settlements, the queue
    has one of the two shapes for the tasks submitted so far. *)
Lemma run_shape cmds c0 : Shape c0 (submittedTasks cmds) (run cmds (start c0)).
Proof.
  induction cmds as [|cmd cmds IH] using rev_ind.
  - apply shape_start.
  - rewrite run_app. unfold submittedTasks. rewrite flat_map_app.
    fold (submittedTasks cmds). destruct cmd as [task|]; cbn.
    + apply shape_enqueue. exact IH.
    + rewrite app_nil_r. apply shape_settle. exact IH.
Qed.

Lemma shape_prefix c0 tasks s :
  Shape c0 tasks s -> exists rest, fst (serial 0 tasks c0) = log s ++ rest.
Proof.
  intros [events c H | settled t waiting events c Htasks H].
  - exists []. rewrite H, app_nil_r. reflexivity.
  - rewrite Htasks, serial_app, H. cbn [log serial].
    destruct (thunk t c) as [r c'].
    destruct (serial _ waiting c') as [events2 c2].
    exists (Finished (List.length settled) (label t) (isResolved r) :: events2).
    cbn. rewrite <- app_assoc. reflexivity.
Qed.

Lemma shape_never_idle_with_backlog c0 tasks s :
  Shape c0 tasks s -> running (queue s) = None -> pending (queue s) = [].
Proof.
  intros [events c H | settled t waiting events c Htasks H]; cbn;
    [reflexivity | discriminate].
Qed.

(** Enough settlements drain the queue, and what is left is the serial
    run of every submitted task. *)
Lemma shape_drain c0 tasks n : forall s,
  Shape c0 tasks s -> backlog s <= n ->
  run (repeat Settle n) s =
  {| queue := {| running := None; pending := [];
                 submitted := List.length tasks |};
     store := snd (serial 0 tasks c0);
     log := fst (serial 0 tasks c0) |}.
Proof.
  induction n as [|n IH]; intros s Hs Hn.
  - destruct Hs as [events c H | settled t waiting events c Htasks H].
    + cbn. rewrite H. reflexivity.
    + unfold backlog in Hn. cbn in Hn. lia.
  - cbn [repeat]. change (run (Settle :: ?l) s) with (run l (settle s)).
    destruct (shape_settle c0 tasks s Hs) as [Hs' Hb].
    apply IH; [assumption | lia].
Qed.

(** C9. For any interleaving of submissions and settlements: what has
    been observed is a prefix of the serial run of the submitted tasks in
    submission order, so tasks run one at a time; a task submitted
    earlier has finished, with success or failure, before a later one
    starts; the queue never sits idle while tasks wait, and when the task
    in flight fails the next waiting task starts with that settlement;
    and once enough settlements have arrived every task has run, with the
    result of the serial run. *)
Theorem queue_runs_tasks_in_submission_order (cmds : list Cmd) (c0 : Connector) :
  (exists rest,
      fst (serial 0 (submittedTasks cmds) c0) = log (run cmds (start c0)) ++ rest)
  /\ (forall i j pj name,
        i < j ->
        nth_error (log (run cmds (start c0))) pj = Some (Started j name) ->
        exists pi name' ok,
          pi < pj
          /\ nth_error (log (run cmds (start c0))) pi = Some (Finished i name' ok))
  /\ (running (queue (run cmds (start c0))) = None ->
      pending (queue (run cmds (start c0))) = [])
  /\ (forall i task i2 task2 rest e c',
        running (queue (run cmds (start c0))) = Some (i, task) ->
        pending (queue (run cmds (start c0))) = (i2, task2) :: rest ->
        thunk task (store (run cmds (start c0))) = (Thrown e, c') ->
        running (queue (settle (run cmds (start c0)))) = Some (i2, task2)
        /\ log (settle (run cmds (start c0)))
           = log (run cmds (start c0))
             ++ [Finished i (label task) false; Started i2 (label task2)])
  /\ (forall n,
        backlog (run cmds (start c0)) <= n ->
        log (run (repeat Settle n) (run cmds (start c0)))
        = fst (serial 0 (submittedTasks cmds) c0)
        /\ store (run (repeat Settle n) (run cmds (start c0)))
           = snd (serial 0 (submittedTasks cmds) c0)
        /\ backlog (run (repeat Settle n) (run cmds (start c0))) = 0).
Proof.
  pose proof (run_shape cmds c0) as Hshape.
  set (s := run cmds (start c0)) in *.
  set (tasks := submittedTasks cmds) in *.
  destruct (shape_prefix c0 tasks s Hshape) as [rest Hprefix].
  split; [exists rest; exact Hprefix|].
  split; [|split; [|split]].
  - intros i j pj name Hij Hpj.
    assert (Hlt : pj < List.length (log s))
      by (apply nth_error_Some; rewrite Hpj; discriminate).
    assert (Hser : nth_error (fst (serial 0 tasks c0)) pj = Some (Started j name))
      by (rewrite Hprefix, nth_error_app1; assumption).
    destruct (serial_event tasks 0 c0 pj _ Hser) as [k [Hk Hpos]].
    cbn [ticketOf isStarted] in Hk, Hpos.
    destruct Hpos as [[Hp _]|[_ Habs]]; [|discriminate].
    assert (Hbound : pj < 2 * List.length tasks).
    { rewrite <- (serial_length tasks 0 c0).
      apply nth_error_Some. rewrite Hser. discriminate. }
    destruct (serial_finished tasks 0 c0 i) as [name' [ok Hfin]]; [lia|].
    exists (2 * i + 1), name', ok. split; [lia|].
    rewrite Hprefix, nth_error_app1 in Hfin by lia. exact Hfin.
  - apply (shape_never_idle_with_backlog c0 tasks s Hshape).
  - intros i task i2 task2 rest' e c' Hrun Hpend Hthunk.
    unfold settle. rewrite Hrun, Hthunk. unfold dispatch. cbn. rewrite Hpend.
    cbn. rewrite <- app_assoc. split; reflexivity.
  - intros n Hn. rewrite (shape_drain c0 tasks n s Hshape Hn).
    repeat split.
Qed.

Lemma queue_runs_tasks_in_submission_order_witness :
  exists pi name' ok,
    pi < 2
    /\ nth_error (log (run twoCallers (start (connectedAt 55103)))) pi
       = Some (Finished 0 name' ok).
Proof.
  apply (proj1 (proj2 (queue_runs_tasks_in_submission_order
                         twoCallers (connectedAt 55103)))
           0 1 2 "executing: run").
  - lia.
  - reflexivity.
Defined.

(** The two callers of the scenario: [folder] fails and [run] is started
    all the same, fails in turn, and the state ends demoted. *)
Example two_callers_log :
  log (run twoCallers (start (connectedAt 55103)))
  = [Started 0 "executing: folder"; Finished 0 "executing: folder" false;
     Started 1 "executing: run"; Finished 1 "executing: run" false]
  /\ connectionState (state (store (run twoCallers (start (connectedAt 55103)))))
     = LOST_CONNECTION.
Proof. split; reflexivity. Qed.

End PromiseQueueFacts.

(** * Further properties of the hook *)

(** ** Rounds *)

Lemma existsb_countOf f rs : existsb f rs = true <-> 1 <= countOf f rs.
Proof.
  split.
  - intro H. apply existsb_exists in H. destruct H as [r [Hin Hr]].
    destruct (countOf f rs) eqn:E; [|lia].
    rewrite countOf_zero in E. rewrite (E r Hin) in Hr. discriminate.
  - intro H. apply existsb_exists. apply countOf_pos. exact H.
Qed.

(** A round with some probe live, whatever the others did. *)
Lemma afterRound_live_connected net c :
  1 <= countOf isLive (probeResults net) ->
  exists p,
    afterRound net c =
    {| state := withConnectionState CONNECTED (state c); dynamoPort := Some p |}.
Proof.
  intro H. apply countOf_pos in H. destruct H as [r [Hin Hr]].
  apply probeResults_In in Hin. destruct Hin as [q [Hq <-]].
  destruct (result (net q)) as [p| |code] eqn:E; try discriminate.
  destruct (afterRound_some_live net c q p Hq E) as [q0 [p0 [_ [_ [_ Hafter]]]]].
  exists p0. exact Hafter.
Qed.

(** X1. The outcome of a round is decided by the probes alone: it is
    [CONNECTED] exactly when some probe is live, [BLOCKED] exactly when
    none is live and some probe was rejected with 503, and [NOT_CONNECTED]
    exactly when none is live and none was rejected with 503, so that a
    rejection with any other status counts as not connected. *)
Theorem round_outcome_classification (net : Z -> Probe) (c : Connector) :
  (connectionState (state (afterRound net c)) = CONNECTED
   <-> 1 <= countOf isLive (probeResults net))
  /\ (connectionState (state (afterRound net c)) = BLOCKED
      <-> countOf isLive (probeResults net) = 0
          /\ 1 <= countOf (isRejectedWith 503) (probeResults net))
  /\ (connectionState (state (afterRound net c)) = NOT_CONNECTED
      <-> countOf isLive (probeResults net) = 0
          /\ countOf (isRejectedWith 503) (probeResults net) = 0).
Proof.
  destruct (countOf isLive (probeResults net)) as [|n] eqn:E.
  - rewrite (afterRound_none_live net c E).
    cbn [state connectionState withConnectionState].
    destruct (existsb (isRejectedWith 503) (probeResults net)) eqn:Ex.
    + apply existsb_countOf in Ex.
      repeat split; try discriminate; try lia; intros; try reflexivity; lia.
    + assert (Hz : countOf (isRejectedWith 503) (probeResults net) = 0).
      { destruct (countOf (isRejectedWith 503) (probeResults net)) eqn:Ec;
          [reflexivity|].
        assert (Hex : existsb (isRejectedWith 503) (probeResults net) = true)
          by (apply existsb_countOf; lia).
        congruence. }
      rewrite Hz.
      repeat split; try discriminate; try lia; intros; reflexivity.
  - destruct (afterRound_live_connected net c) as [p Hp]; [lia|].
    rewrite Hp. cbn [state connectionState withConnectionState].
    repeat split; try discriminate; try lia; intros [? ?]; discriminate.
Qed.

(** X2. A round forgets what was there before it: its outcome depends on
    the previous cells only through [currentOpenGraph], so a round run
    after another gives what it would have given alone, and running the
    same round twice changes nothing more. *)
Theorem round_supersedes_earlier_state (net net' : Z -> Probe) (c c' : Connector) :
  (currentOpenGraph (state c) = currentOpenGraph (state c') ->
   afterRound net c = afterRound net c')
  /\ afterRound net (afterRound net' c) = afterRound net c
  /\ afterRound net (afterRound net c) = afterRound net c.
Proof.
  assert (Hdep : forall a b,
    currentOpenGraph (state a) = currentOpenGraph (state b) ->
    afterRound net a = afterRound net b).
  { intros a b H.
    destruct (Promise_any (portDiscovery_requests net)) as [r|errors] eqn:E.
    - rewrite !(afterRound_resolved net _ r E).
      unfold withConnectionState. rewrite H. reflexivity.
    - rewrite !(afterRound_rejected net _ errors E).
      unfold withConnectionState. rewrite H. reflexivity. }
  assert (Hkeep : forall n a,
    currentOpenGraph (state (afterRound n a)) = currentOpenGraph (state a)).
  { intros n a.
    destruct (Promise_any (portDiscovery_requests n)) as [r|errors] eqn:E.
    - rewrite (afterRound_resolved n a r E). reflexivity.
    - rewrite (afterRound_rejected n a errors E). reflexivity. }
  split; [apply Hdep|]. split; apply Hdep; apply Hkeep.
Qed.

Lemma round_supersedes_earlier_state_witness :
  afterRound nobodyHome (connectedAt 55103)
  = afterRound nobodyHome (afterRound busyInstance (connectedAt 55103)).
Proof.
  apply (proj1 (round_supersedes_earlier_state nobodyHome busyInstance
                  (connectedAt 55103)
                  (afterRound busyInstance (connectedAt 55103)))).
  reflexivity.
Defined.

(** ** The service URL *)

Lemma to_int_not_nil z : Z.to_int z <> Decimal.Pos Decimal.Nil
                         /\ Z.to_int z <> Decimal.Neg Decimal.Nil.
Proof.
  destruct z as [|p|p]; cbn; split; intro H; try discriminate;
    injection H as H; exact (DecimalPos.Unsigned.to_uint_nonnil p H).
Qed.

Lemma showPort_Some_parses z :
  NilZero.int_of_string (showPort (Some z)) = Some (Z.to_int z).
Proof.
  unfold showPort. destruct (to_int_not_nil z) as [H1 H2].
  apply NilZero.isi; assumption.
Qed.

Lemma showPort_injective p1 p2 : showPort p1 = showPort p2 -> p1 = p2.
Proof.
  destruct p1 as [z1|], p2 as [z2|]; intro H.
  - apply (f_equal NilZero.int_of_string) in H.
    rewrite !showPort_Some_parses in H. injection H as H.
    apply (f_equal Z.of_int) in H. rewrite !DecimalZ.of_to in H.
    subst. reflexivity.
  - apply (f_equal NilZero.int_of_string) in H.
    rewrite showPort_Some_parses in H. discriminate.
  - apply (f_equal NilZero.int_of_string) in H.
    rewrite showPort_Some_parses in H. discriminate.
  - reflexivity.
Qed.

Lemma getDynamoUrl_port c1 c2 :
  getDynamoUrl c1 = getDynamoUrl c2 <-> dynamoPort c1 = dynamoPort c2.
Proof.
  unfold getDynamoUrl. split.
  - intro H. cbn in H. repeat injection H as H. apply showPort_injective.
    exact H.
  - intros ->. reflexivity.
Qed.

Lemma port_after_round net c :
  (connectionState (state (afterRound net c)) <> CONNECTED ->
   dynamoPort (afterRound net c) = None)
  /\ (connectionState (state (afterRound net c)) = CONNECTED ->
      exists p, dynamoPort (afterRound net c) = Some p).
Proof.
  destruct (Promise_any (portDiscovery_requests net)) as [r|errors] eqn:E.
  - rewrite (afterRound_resolved net c r E). cbn. split.
    + intro H. exfalso. apply H. reflexivity.
    + intros _. exists (port r). reflexivity.
  - rewrite (afterRound_rejected net c errors E). cbn. split.
    + reflexivity.
    + destruct (find (status_is 503) errors); discriminate.
Qed.

(** X3. The URL names the port and nothing else: two renders have the
    same URL exactly when they have the same port (an absent port
    included), so the service memoised on the URL is rebuilt exactly when
    the port changes. *)
Theorem getDynamoUrl_identifies_port (c1 c2 : Connector) :
  getDynamoUrl c1 = getDynamoUrl c2 <-> dynamoPort c1 = dynamoPort c2.
Proof. apply getDynamoUrl_port. Qed.

(** ** The facade, operation by operation *)

(** X5. Every operation of the facade settles for its caller exactly as
    the request behind it settled: the value when it resolved, the very
    same error when it was rejected.  Nothing is swallowed, replaced or
    retried. *)
Theorem facade_hands_over_settlement newDynamo net rendered (c : Connector)
  (path : string) (target : GraphTarget) (inputs : RunInputs) (p : Z) :
  let svc := dynamoLocalService newDynamo net rendered in
  let dynamo := newDynamo (getDynamoUrl rendered) in
  outcome (folder svc path) c = dynamo_folder dynamo path
  /\ outcome (current svc) c = dynamo_info dynamo CurrentGraphTarget
  /\ outcome (info svc target) c = dynamo_info dynamo target
  /\ outcome (run svc target inputs) c = dynamo_run dynamo target inputs
  /\ outcome (trust svc path) c = dynamo_trust dynamo path
  /\ outcome (serverInfo svc) c = dynamo_serverInfo dynamo
  /\ outcome (health svc p) c = probePromise (result (net p)).
Proof.
  intros svc dynamo. unfold outcome, svc.
  cbn -[isNotTrusted getDynamoUrl].
  unfold catch, await, lostConnection, bind, throw, setState, ret.
  fold dynamo.
  repeat split.
  - destruct (dynamo_folder dynamo path); reflexivity.
  - destruct (dynamo_info dynamo target) as [a|e]; [reflexivity|].
    cbn -[isNotTrusted]. destruct (isNotTrusted e); reflexivity.
  - destruct (dynamo_run dynamo target inputs); reflexivity.
  - destruct (dynamo_trust dynamo path); reflexivity.
Qed.

(** X6. A facade call changes the hook cells in one way only, the
    demotion to [LOST_CONNECTION], and only when the request of [folder],
    [info], [run] or [trust] was rejected with an error that is not the
    exempt one; [current], [serverInfo] and [health] never change them. *)
Theorem facade_changes_cells_only_by_demotion newDynamo net rendered call (c : Connector) :
  let m := perform (dynamoLocalService newDynamo net rendered) call in
  (exec m c = c \/ exec m c = demoted c)
  /\ (exec m c <> c ->
      exists e,
        requestFailure (newDynamo (getDynamoUrl rendered)) net call = Some e
        /\ hasErrorFeedback call = true
        /\ exempt call e = false).
Proof.
  intro m. unfold m. rewrite perform_store.
  destruct (requestFailure _ net call) as [e|].
  - destruct (hasErrorFeedback call) eqn:Hfb; cbn [andb].
    + destruct (exempt call e) eqn:Hex; cbn [negb].
      * split; [left; reflexivity | intro H; exfalso; apply H; reflexivity].
      * split; [right; reflexivity | intros _; exists e; repeat split; assumption].
    + split; [left; reflexivity | intro H; exfalso; apply H; reflexivity].
  - split; [left; reflexivity | intro H; exfalso; apply H; reflexivity].
Qed.

Lemma facade_changes_cells_only_by_demotion_witness :
  exists e,
    requestFailure (goneDynamo (getDynamoUrl (connectedAt 55103))) nobodyHome
      (CallTrust "/graphs/tower.dyn") = Some e
    /\ hasErrorFeedback (CallTrust "/graphs/tower.dyn") = true
    /\ exempt (CallTrust "/graphs/tower.dyn") e = false.
Proof.
  apply (proj2 (facade_changes_cells_only_by_demotion goneDynamo nobodyHome
                  (connectedAt 55103) (CallTrust "/graphs/tower.dyn")
                  (connectedAt 55103))).
  vm_compute. discriminate.
Defined.

(** X7. Through the queued service, [current] is [info] on the current
    graph: it settles like the facade's own [current], but a rejection
    that is not the exempt one demotes the state, which the facade's own
    [current] never does. *)
Theorem queued_current_goes_through_info newDynamo net rendered e (c : Connector) :
  let svc := dynamoLocalService newDynamo net rendered in
  dynamo_info (newDynamo (getDynamoUrl rendered)) CurrentGraphTarget = Thrown e ->
  isNotTrusted e = false ->
  thunk (queued_current (queuedDynamoLocalService svc)) c = (Thrown e, demoted c)
  /\ current svc c = (Thrown e, c).
Proof.
  intros svc Hreq Hex. unfold svc. cbn -[isNotTrusted getDynamoUrl].
  unfold catch, await, bind, throw, setState, ret. rewrite Hreq.
  cbn -[isNotTrusted]. rewrite Hex. split; reflexivity.
Qed.

Lemma queued_current_goes_through_info_witness :
  thunk (queued_current
           (queuedDynamoLocalService
              (dynamoLocalService goneDynamo nobodyHome (connectedAt 55103))))
    (connectedAt 55103)
  = (Thrown connectionRefused, demoted (connectedAt 55103)).
Proof.
  apply (proj1 (queued_current_goes_through_info goneDynamo nobodyHome
                  (connectedAt 55103) connectionRefused (connectedAt 55103)
                  eq_refl eq_refl)).
Defined.

(** ** The interval over whole runs *)

Lemma timerEffect_cases cs :
  (timerEffect cs = Some 2000 /\ In cs pollingStates)
  \/ (timerEffect cs = None /\ (cs = INIT \/ cs = CONNECTED)).
Proof.
  destruct cs; unfold pollingStates;
    first [ right; split; [reflexivity | tauto]
          | left; split; [reflexivity | cbn; tauto] ].
Qed.

Lemma intervalMatches_spec w :
  intervalMatches w = true <->
  match intervalId w with
  | Some iv =>
      In (connectionOf w) pollingStates
      /\ delay iv = 2000 /\ 1 <= remaining iv <= 2000
  | None => connectionOf w = INIT \/ connectionOf w = CONNECTED
  end.
Proof.
  unfold intervalMatches.
  destruct (intervalId w) as [iv|];
    destruct (timerEffect_cases (connectionOf w)) as [[-> Hin]|[-> Hout]].
  - rewrite !andb_true_iff, Nat.eqb_eq, !Nat.leb_le. tauto.
  - split; [discriminate|]. intros [Hin _]. exfalso.
    unfold pollingStates in Hin. cbn in Hin.
    destruct Hout as [E|E]; rewrite E in Hin;
      repeat (destruct Hin as [Hin|Hin]; [discriminate|]); exact Hin.
  - split; [discriminate|]. intro Hout. exfalso.
    unfold pollingStates in Hin. cbn in Hin.
    destruct Hout as [E|E]; rewrite E in Hin;
      repeat (destruct Hin as [Hin|Hin]; [discriminate|]); exact Hin.
  - tauto.
Qed.

Lemma intervalMatches_same w w' :
  intervalId w' = intervalId w -> connectionOf w' = connectionOf w ->
  intervalMatches w = true -> intervalMatches w' = true.
Proof. unfold intervalMatches. intros -> ->. trivial. Qed.

Lemma intervalMatches_applyEffects w : intervalMatches (applyEffects w) = true.
Proof.
  unfold intervalMatches. rewrite connectionOf_applyEffects.
  unfold applyEffects. cbn [intervalId].
  destruct (timerEffect_cases (connectionOf w)) as [[-> _]|[-> _]]; reflexivity.
Qed.

Lemma intervalMatches_commit {A} (m : Hook A) w :
  intervalMatches w = true -> intervalMatches (commit m w) = true.
Proof.
  intro H. unfold commit, afterRender.
  destruct (state_eqb _ _) eqn:E; [|apply intervalMatches_applyEffects].
  apply state_eqb_eq in E.
  apply (intervalMatches_same w); [reflexivity | symmetry; exact E | exact H].
Qed.

Lemma intervalMatches_startRound w :
  intervalMatches w = true -> intervalMatches (startRound w) = true.
Proof. apply intervalMatches_same; reflexivity. Qed.

Lemma intervalMatches_tick w :
  intervalMatches w = true -> intervalMatches (tick w) = true.
Proof.
  intro H. apply intervalMatches_spec. apply intervalMatches_spec in H.
  assert (Hc : connectionOf (tick w) = connectionOf w)
    by (unfold connectionOf; rewrite tick_state; reflexivity).
  rewrite Hc. unfold tick.
  destruct (intervalId w) as [iv|]; [|exact H].
  destruct H as [Hin [Hd Hr]].
  destruct (remaining iv <=? 1) eqn:E; cbn [intervalId delay remaining].
  - rewrite Hd. repeat split; try assumption; lia.
  - apply Nat.leb_gt in E. repeat split; try assumption; lia.
Qed.

Lemma intervalMatches_elapse ms : forall w,
  intervalMatches w = true -> intervalMatches (elapse ms w) = true.
Proof.
  induction ms as [|ms IH]; intros w H; [exact H|].
  cbn [elapse]. apply IH. apply intervalMatches_tick. exact H.
Qed.

Lemma intervalMatches_happen h w :
  intervalMatches w = true -> intervalMatches (happen h w) = true.
Proof.
  intro H. destruct h as [ms|net|A call|]; cbn [happen].
  - apply intervalMatches_elapse. exact H.
  - unfold roundSettles. destruct (inflight w); [exact H|].
    apply intervalMatches_commit.
    apply (intervalMatches_same w); [reflexivity | reflexivity | exact H].
  - apply intervalMatches_commit. exact H.
  - apply intervalMatches_startRound. exact H.
Qed.

Lemma happenAll_app hs1 hs2 w :
  happenAll (hs1 ++ hs2) w = happenAll hs2 (happenAll hs1 w).
Proof. unfold happenAll. apply fold_left_app. Qed.

Lemma intervalMatches_happenAll hs : forall w,
  intervalMatches w = true -> intervalMatches (happenAll hs w) = true.
Proof.
  induction hs as [|h hs IH]; intros w H; [exact H|].
  cbn. apply IH. apply intervalMatches_happen. exact H.
Qed.

Lemma intervalMatches_reachable hs : intervalMatches (happenAll hs mount) = true.
Proof.
  apply intervalMatches_happenAll. apply intervalMatches_applyEffects.
Qed.

(** X8. Whatever happens to the mounted hook, in whatever order, the
    interval is installed exactly while the connection state is one of the
    four polling states: then its delay is 2000 ms and it fires within the
    next 2000 ms; in [INIT] and [CONNECTED] there is no interval. *)
Theorem interval_follows_connection_state (hs : list Happening) :
  match intervalId (happenAll hs mount) with
  | Some iv =>
      In (connectionOf (happenAll hs mount))
         [NOT_CONNECTED; MULTIPLE_CONNECTIONS; BLOCKED; LOST_CONNECTION]
      /\ delay iv = 2000 /\ 1 <= remaining iv <= 2000
  | None =>
      connectionOf (happenAll hs mount) = INIT
      \/ connectionOf (happenAll hs mount) = CONNECTED
  end.
Proof.
  apply (proj1 (intervalMatches_spec _)). apply intervalMatches_reachable.
Qed.

(** X9. A hook that has reached [CONNECTED] starts no round by itself:
    however much time passes, no call of [portDiscovery] is made, and the
    state and the port stay as they are. *)
Theorem connected_hook_never_polls (hs : list Happening) (t : nat) :
  connectionOf (happenAll hs mount) = CONNECTED ->
  roundStarts (elapse t (happenAll hs mount)) = roundStarts (happenAll hs mount)
  /\ hook (elapse t (happenAll hs mount)) = hook (happenAll hs mount).
Proof.
  intro H. pose proof (intervalMatches_reachable hs) as Hm.
  apply intervalMatches_spec in Hm.
  destruct (intervalId (happenAll hs mount)) as [iv|] eqn:Ei.
  - exfalso. destruct Hm as [Hin _]. rewrite H in Hin.
    unfold pollingStates in Hin. cbn in Hin.
    repeat (destruct Hin as [Hin|Hin]; [discriminate|]). exact Hin.
  - rewrite (elapse_idle t _ Ei). split; reflexivity.
Qed.

Lemma connected_hook_never_polls_witness :
  roundStarts (elapse 4500 connectedWorld) = roundStarts connectedWorld
  /\ hook (elapse 4500 connectedWorld) = hook connectedWorld.
Proof.
  apply (connected_hook_never_polls [RoundSettles oneInstance] 4500).
  reflexivity.
Defined.

(** X10. A hook in one of the four polling states, however it got there,
    calls [portDiscovery] again within 2000 ms if nothing else happens:
    there is an instant, at most 2000 ms away, before which no round
    starts and at which one does. *)
Theorem polling_hook_probes_again_within_2s (hs : list Happening) :
  In (connectionOf (happenAll hs mount))
     [NOT_CONNECTED; MULTIPLE_CONNECTIONS; BLOCKED; LOST_CONNECTION] ->
  exists t,
    1 <= t <= 2000
    /\ (forall t', t' < t ->
          roundStarts (elapse t' (happenAll hs mount))
          = roundStarts (happenAll hs mount))
    /\ roundStarts (elapse t (happenAll hs mount))
       = roundStarts (happenAll hs mount) ++ [clock (happenAll hs mount) + t].
Proof.
  intro H. pose proof (intervalMatches_reachable hs) as Hm.
  apply intervalMatches_spec in Hm.
  destruct (intervalId (happenAll hs mount)) as [[d r]|] eqn:Ei.
  - destruct Hm as [_ [_ Hr]]. cbn [remaining] in Hr.
    exists r. split; [exact Hr|]. split.
    + intros t' Ht'. rewrite (elapse_waiting t' _ d r Ei Ht'). reflexivity.
    + rewrite (elapse_fires _ d r Ei) by lia. reflexivity.
  - exfalso. cbn in H.
    destruct Hm as [E|E]; rewrite E in H;
      repeat (destruct H as [H|H]; [discriminate|]); exact H.
Qed.

Lemma polling_hook_probes_again_within_2s_witness :
  exists t,
    1 <= t <= 2000
    /\ (forall t', t' < t ->
          roundStarts (elapse t' (happenAll [RoundSettles nobodyHome] mount))
          = roundStarts (happenAll [RoundSettles nobodyHome] mount))
    /\ roundStarts (elapse t (happenAll [RoundSettles nobodyHome] mount))
       = roundStarts (happenAll [RoundSettles nobodyHome] mount)
         ++ [clock (happenAll [RoundSettles nobodyHome] mount) + t].
Proof.
  apply (polling_hook_probes_again_within_2s [RoundSettles nobodyHome]).
  vm_compute. tauto.
Defined.

(** ** What settles a round, outside a whole round *)

(** The end of a round alone, from any cells. *)
Lemma finish_cases net c :
  (1 <= countOf isLive (probeResults net) ->
   exists p,
     exec (portDiscovery_finish net) c =
     {| state := withConnectionState CONNECTED (state c); dynamoPort := Some p |})
  /\ (countOf isLive (probeResults net) = 0 ->
      exec (portDiscovery_finish net) c =
      {| state :=
           withConnectionState
             (if existsb (isRejectedWith 503) (probeResults net)
              then BLOCKED else NOT_CONNECTED) (state c);
         dynamoPort := dynamoPort c |}).
Proof.
  split.
  - intro H. destruct (afterRound_live_connected net c H) as [p Hp].
    destruct (Promise_any (portDiscovery_requests net)) as [a|errors] eqn:E.
    + exists (port a). unfold exec, portDiscovery_finish. rewrite E. reflexivity.
    + rewrite (afterRound_rejected net c errors E) in Hp. discriminate.
  - intro H. pose proof (afterRound_none_live net c H) as Hn.
    destruct (Promise_any (portDiscovery_requests net)) as [a|errors] eqn:E.
    + rewrite (afterRound_resolved net c a E) in Hn. discriminate.
    + rewrite (afterRound_rejected net c errors E) in Hn.
      remember (existsb (isRejectedWith 503) (probeResults net)) as b eqn:Eb.
      clear Eb. unfold withConnectionState in Hn. injection Hn as Hn.
      unfold exec, portDiscovery_finish. rewrite E.
      destruct (find (status_is 503) errors); destruct b;
        try discriminate; reflexivity.
Qed.

Lemma perform_connection newDynamo net rendered call c :
  connectionState
    (state (exec (perform (dynamoLocalService newDynamo net rendered) call) c))
  = connectionState (state c)
  \/ connectionState
       (state (exec (perform (dynamoLocalService newDynamo net rendered) call) c))
     = LOST_CONNECTION.
Proof.
  rewrite perform_store.
  destruct (requestFailure _ net call) as [e|]; [|left; reflexivity].
  destruct (hasErrorFeedback call && negb (exempt call e));
    [right | left]; reflexivity.
Qed.

Lemma perform_open_graph newDynamo net rendered call c :
  currentOpenGraph
    (state (exec (perform (dynamoLocalService newDynamo net rendered) call) c))
  = currentOpenGraph (state c).
Proof.
  rewrite perform_store.
  destruct (requestFailure _ net call) as [e|]; [|reflexivity].
  destruct (hasErrorFeedback call && negb (exempt call e)); reflexivity.
Qed.

Lemma finish_open_graph net c :
  currentOpenGraph (state (exec (portDiscovery_finish net) c))
  = currentOpenGraph (state c).
Proof.
  unfold exec, portDiscovery_finish.
  destruct (Promise_any (portDiscovery_requests net)) as [a|errors];
    [reflexivity|].
  destruct (find (status_is 503) errors); reflexivity.
Qed.

(** A commit that does not lead to [INIT] starts no round. *)
Lemma commit_cells {A} (m : Hook A) w :
  connectionState (state (exec m (hook w))) <> INIT ->
  hook (commit m w) = exec m (hook w)
  /\ inflight (commit m w) = inflight w
  /\ roundStarts (commit m w) = roundStarts w
  /\ clock (commit m w) = clock w.
Proof.
  intro H. unfold commit, afterRender.
  destruct (state_eqb _ _); [repeat split|].
  unfold applyEffects, initEffect, connectionOf. cbn [hook].
  rewrite (state_eqb_neq _ _ H). repeat split.
Qed.

(** A commit that leaves the connection state alone re-runs no effect. *)
Lemma commit_unchanged {A} (m : Hook A) w :
  connectionState (state (exec m (hook w))) = connectionOf w ->
  commit m w =
  {| hook := exec m (hook w); intervalId := intervalId w;
     clock := clock w; roundStarts := roundStarts w; inflight := inflight w |}.
Proof.
  intro H. unfold commit, afterRender.
  unfold connectionOf at 2. cbn [hook]. rewrite H, state_eqb_refl. reflexivity.
Qed.

(** One event moves the connection state to one of four states or leaves
    it, and leaves the open graph. *)
Lemma event_step e w :
  (connectionOf (happen (eventHappening e) w) = connectionOf w
   \/ In (connectionOf (happen (eventHappening e) w))
         [CONNECTED; BLOCKED; NOT_CONNECTED; LOST_CONNECTION])
  /\ currentOpenGraph (state (hook (happen (eventHappening e) w)))
     = currentOpenGraph (state (hook w)).
Proof.
  destruct e as [ms|net|newDynamo net rendered call|]; cbn [eventHappening happen].
  - unfold connectionOf. rewrite elapse_state. split; [left|]; reflexivity.
  - unfold roundSettles. destruct (inflight w) as [|n];
      [split; [left|]; reflexivity|].
    rewrite connectionOf_commit, state_commit. cbn [hook]. split.
    + right. pose proof (finish_connection net (hook w)) as H.
      cbn in H. cbn. tauto.
    + apply finish_open_graph.
  - rewrite connectionOf_commit, state_commit. split.
    + destruct (perform_connection newDynamo net rendered call (hook w)) as [H|H];
        [left; exact H | right; rewrite H; cbn; tauto].
    + apply perform_open_graph.
  - split; [left|]; reflexivity.
Qed.

Lemma events_preserve (P : World -> Prop) :
  (forall e w, P w -> P (happen (eventHappening e) w)) ->
  forall events w, P w -> P (happenAll (map eventHappening events) w).
Proof.
  intros Hstep events. induction events as [|e events IH]; intros w H.
  - exact H.
  - cbn. apply IH. apply Hstep. exact H.
Qed.

Lemma play_app events events' :
  play (events ++ events') = happenAll (map eventHappening events') (play events).
Proof. unfold play. rewrite map_app. apply happenAll_app. Qed.

(** X11. Over any run of the hook (time passing, rounds settling, facade
    calls settling, reconnects) the connection state is never
    [MULTIPLE_CONNECTIONS], and once it has left [INIT] it never is [INIT]
    again. *)
Theorem reachable_connection_states (events events' : list HookEvent) :
  connectionOf (play events) <> MULTIPLE_CONNECTIONS
  /\ (connectionOf (play events) <> INIT ->
      connectionOf (play (events ++ events')) <> INIT).
Proof.
  split.
  - unfold play.
    apply (events_preserve (fun w => connectionOf w <> MULTIPLE_CONNECTIONS));
      [|discriminate].
    intros e w H. destruct (event_step e w) as [[E|Hin] _].
    + rewrite E. exact H.
    + cbn in Hin. intro E. rewrite E in Hin.
      repeat (destruct Hin as [Hin|Hin]; [discriminate|]). exact Hin.
  - intro H. rewrite play_app.
    apply (events_preserve (fun w => connectionOf w <> INIT)); [|exact H].
    intros e w Hw. destruct (event_step e w) as [[E|Hin] _].
    + rewrite E. exact Hw.
    + cbn in Hin. intro E. rewrite E in Hin.
      repeat (destruct Hin as [Hin|Hin]; [discriminate|]). exact Hin.
Qed.

Lemma reachable_connection_states_witness :
  connectionOf (play ([RoundDone nobodyHome] ++ [TimePasses 2000; RoundDone oneInstance]))
  <> INIT.
Proof.
  apply (proj2 (reachable_connection_states [RoundDone nobodyHome]
                  [TimePasses 2000; RoundDone oneInstance])).
  vm_compute. discriminate.
Defined.

(** X12. The hook never fills in [currentOpenGraph]: over any run it is
    absent, as it was at the first render. *)
Theorem open_graph_is_never_set (events : list HookEvent) :
  currentOpenGraph (state (hook (play events))) = None.
Proof.
  unfold play.
  apply (events_preserve
           (fun w => currentOpenGraph (state (hook w)) = None)); [|reflexivity].
  intros e w H. rewrite (proj2 (event_step e w)). exact H.
Qed.

(** X13. While the state is [LOST_CONNECTION] a facade call, failing or
    not, leaves the state, the interval and its countdown as they are:
    further failures do not postpone the next round. *)
Theorem calls_while_lost_keep_timer_phase newDynamo net rendered call (w : World) :
  connectionOf w = LOST_CONNECTION ->
  let h := CallSettles unit (perform (dynamoLocalService newDynamo net rendered) call) in
  connectionOf (happen h w) = LOST_CONNECTION
  /\ intervalId (happen h w) = intervalId w
  /\ roundStarts (happen h w) = roundStarts w
  /\ clock (happen h w) = clock w.
Proof.
  intros H h. unfold h. cbn [happen].
  assert (Hc : connectionState
                 (state (exec (perform (dynamoLocalService newDynamo net rendered) call)
                           (hook w))) = LOST_CONNECTION).
  { destruct (perform_connection newDynamo net rendered call (hook w)) as [E|E];
      [rewrite E; exact H | exact E]. }
  split; [rewrite connectionOf_commit; exact Hc|].
  rewrite commit_unchanged by (rewrite Hc; symmetry; exact H).
  repeat split.
Qed.

Lemma calls_while_lost_keep_timer_phase_witness :
  intervalId (happen failingRun (elapse 700 lostWorld))
  = intervalId (elapse 700 lostWorld).
Proof.
  apply (calls_while_lost_keep_timer_phase goneDynamo nobodyHome
           (hook connectedWorld) (CallRun CurrentGraphTarget "{}")
           (elapse 700 lostWorld)).
  reflexivity.
Defined.

(** X14. A round whose outcome differs from the current connection state
    re-runs the effects: if it connected, the interval is gone; if it
    ended in [BLOCKED] or [NOT_CONNECTED], the interval starts afresh with
    its full 2000 ms, whatever was left of the previous countdown. *)
Theorem state_changing_round_resets_interval (net : Z -> Probe) (w : World) :
  connectionOf (roundSettles net w) <> connectionOf w ->
  (connectionOf (roundSettles net w) = CONNECTED
   /\ intervalId (roundSettles net w) = None)
  \/ (In (connectionOf (roundSettles net w)) [BLOCKED; NOT_CONNECTED]
      /\ intervalId (roundSettles net w)
         = Some {| delay := 2000; remaining := 2000 |}).
Proof.
  unfold roundSettles. destruct (inflight w) as [|n];
    [intro H; exfalso; apply H; reflexivity|].
  intro H. rewrite connectionOf_commit in *. cbn [hook] in *.
  rewrite commit_changed by (cbn [hook]; exact H). cbn [hook].
  pose proof (finish_connection net (hook w)) as Hin. cbn in Hin.
  match goal with
  | |- context [applyEffects ?x] => set (w1 := x) in *
  end.
  assert (Hw1 : connectionOf w1
                = connectionState (state (exec (portDiscovery_finish net) (hook w))))
    by reflexivity.
  destruct Hin as [E|[E|[E|[]]]].
  - left. split; [exact (eq_sym E)|].
    rewrite applyEffects_connected; [reflexivity|]. rewrite Hw1. symmetry. exact E.
  - right. split; [left; exact E|].
    rewrite applyEffects_polling; [reflexivity|].
    rewrite Hw1, <- E. unfold pollingStates. cbn. tauto.
  - right. split; [right; left; exact E|].
    rewrite applyEffects_polling; [reflexivity|].
    rewrite Hw1, <- E. unfold pollingStates. cbn. tauto.
Qed.

Lemma state_changing_round_resets_interval_witness :
  In (connectionOf (roundSettles busyInstance (elapse 2300 lostWorld)))
     [BLOCKED; NOT_CONNECTED]
  /\ intervalId (roundSettles busyInstance (elapse 2300 lostWorld))
     = Some {| delay := 2000; remaining := 2000 |}.
Proof.
  destruct (state_changing_round_resets_interval busyInstance (elapse 2300 lostWorld))
    as [[H _]|H].
  - vm_compute. discriminate.
  - vm_compute in H. discriminate.
  - exact H.
Defined.

(** X15. Two rounds can be pending at once, and they settle
    independently: if one finds a live instance and the other, settling
    after it, finds none, the hook ends in [BLOCKED] or [NOT_CONNECTED]
    with the port of the first still set. *)
Theorem overlapping_rounds_leave_stale_port (net1 net2 : Z -> Probe) (w : World) :
  2 <= inflight w ->
  1 <= countOf isLive (probeResults net1) ->
  countOf isLive (probeResults net2) = 0 ->
  In (connectionOf (roundSettles net2 (roundSettles net1 w))) [BLOCKED; NOT_CONNECTED]
  /\ exists p,
       dynamoPort (hook (roundSettles net1 w)) = Some p
       /\ dynamoPort (hook (roundSettles net2 (roundSettles net1 w))) = Some p.
Proof.
  intros Hn Hlive Hnone.
  destruct (inflight w) as [|[|n]] eqn:En; try lia.
  assert (H1 : exists p,
             hook (roundSettles net1 w)
             = {| state := withConnectionState CONNECTED (state (hook w));
                  dynamoPort := Some p |}
             /\ inflight (roundSettles net1 w) = S n).
  { unfold roundSettles. rewrite En.
    destruct (proj1 (finish_cases net1 (hook w)) Hlive) as [p Hp].
    exists p.
    match goal with
    | |- context [commit ?m ?x] =>
        destruct (commit_cells m x) as [Hh [Hi _]]
    end.
    - cbn [hook]. rewrite Hp. discriminate.
    - rewrite Hh, Hi. cbn [hook inflight]. split; [exact Hp | reflexivity]. }
  destruct H1 as [p [Hh1 Hi1]].
  set (w1 := roundSettles net1 w) in *.
  pose proof (proj2 (finish_cases net2 (hook w1)) Hnone) as Hf.
  assert (Hh2 : hook (roundSettles net2 w1) = exec (portDiscovery_finish net2) (hook w1)).
  { unfold roundSettles. rewrite Hi1.
    match goal with
    | |- context [commit ?m ?x] =>
        destruct (commit_cells m x) as [Hh _]
    end.
    - cbn [hook]. rewrite Hf. cbn [state connectionState withConnectionState].
      destruct (existsb (isRejectedWith 503) (probeResults net2)); discriminate.
    - exact Hh. }
  split.
  - unfold connectionOf. rewrite Hh2, Hf.
    cbn [state connectionState withConnectionState].
    destruct (existsb (isRejectedWith 503) (probeResults net2)); cbn; tauto.
  - exists p. split; [rewrite Hh1; reflexivity|].
    rewrite Hh2, Hf, Hh1. reflexivity.
Qed.

Lemma overlapping_rounds_leave_stale_port_witness :
  In (connectionOf
        (roundSettles nobodyHome (roundSettles oneInstance (startRound mount))))
     [BLOCKED; NOT_CONNECTED]
  /\ exists p,
       dynamoPort (hook (roundSettles oneInstance (startRound mount))) = Some p
       /\ dynamoPort
            (hook (roundSettles nobodyHome
                     (roundSettles oneInstance (startRound mount)))) = Some p.
Proof.
  apply (overlapping_rounds_leave_stale_port oneInstance nobodyHome
           (startRound mount)).
  - vm_compute. lia.
  - vm_compute. lia.
  - reflexivity.
Defined.

(** ** The port and the interval over whole runs *)

Lemma tick_cases w :
  (hook (tick w) = hook w /\ roundStarts (tick w) = roundStarts w)
  \/ (hook (tick w) = exec portDiscovery_start (hook w)
      /\ roundStarts (tick w) = roundStarts w ++ [S (clock w)]).
Proof.
  unfold tick. destruct (intervalId w) as [iv|]; [|left; split; reflexivity].
  destruct (remaining iv <=? 1); [right | left]; split; reflexivity.
Qed.

(** Time alone either leaves the cells and starts no round, or starts a
    round and leaves the port cleared. *)
Lemma elapse_port ms : forall w,
  (hook (elapse ms w) = hook w /\ roundStarts (elapse ms w) = roundStarts w)
  \/ (dynamoPort (hook (elapse ms w)) = None
      /\ List.length (roundStarts w) < List.length (roundStarts (elapse ms w))).
Proof.
  induction ms as [|ms IH]; intro w; [left; split; reflexivity|].
  cbn [elapse].
  destruct (tick_cases w) as [[Hh Hr]|[Hh Hr]];
    destruct (IH (tick w)) as [[Hh' Hr']|[Hp' Hr']].
  - left. rewrite Hh', Hr', Hh, Hr. split; reflexivity.
  - right. rewrite Hr in Hr'. split; assumption.
  - right. rewrite Hh', Hr', Hh, Hr, length_app. cbn. split; [reflexivity | lia].
  - right. rewrite Hr, length_app in Hr'. cbn in Hr'. split; [assumption | lia].
Qed.

(** A settled facade call leaves in the mounted hook what it leaves in the
    cells. *)
Lemma hook_after_call newDynamo net rendered call w :
  hook (commit (perform (dynamoLocalService newDynamo net rendered) call) w)
  = exec (perform (dynamoLocalService newDynamo net rendered) call) (hook w)
  /\ roundStarts (commit (perform (dynamoLocalService newDynamo net rendered) call) w)
     = roundStarts w.
Proof.
  set (m := perform (dynamoLocalService newDynamo net rendered) call).
  destruct (DynamoConnectionState_eq_dec
              (connectionState (state (exec m (hook w)))) (connectionOf w))
    as [E|ne].
  - rewrite (commit_unchanged m w E). split; reflexivity.
  - destruct (commit_cells m w) as [Hh [_ [Hr _]]]; [|split; assumption].
    destruct (perform_connection newDynamo net rendered call (hook w)) as [H|H];
      fold m in H; [contradiction | rewrite H; discriminate].
Qed.

Lemma hook_after_settle net w n :
  inflight w = S n ->
  hook (roundSettles net w) = exec (portDiscovery_finish net) (hook w)
  /\ roundStarts (roundSettles net w) = roundStarts w
  /\ connectionOf (roundSettles net w)
     = connectionState (state (exec (portDiscovery_finish net) (hook w))).
Proof.
  intro Hn. unfold roundSettles. rewrite Hn.
  rewrite connectionOf_commit. cbn [hook].
  match goal with
  | |- context [commit ?m ?x] => destruct (commit_cells m x) as [Hh [_ [Hr _]]]
  end.
  - cbn [hook]. pose proof (finish_connection net (hook w)) as H. cbn in H.
    intro E. rewrite E in H.
    repeat (destruct H as [H|H]; [discriminate|]). exact H.
  - rewrite Hh, Hr. repeat split.
Qed.

(** What one event can do to the port: nothing; or clear it, and then a
    round has started; or set it, and then a round has settled with a live
    probe and the state is [CONNECTED]. *)
Lemma event_port_step e w :
  dynamoPort (hook (happen (eventHappening e) w)) = dynamoPort (hook w)
  \/ (dynamoPort (hook (happen (eventHappening e) w)) = None
      /\ List.length (roundStarts w)
         < List.length (roundStarts (happen (eventHappening e) w)))
  \/ (exists net p,
        e = RoundDone net
        /\ 1 <= countOf isLive (probeResults net)
        /\ connectionOf (happen (eventHappening e) w) = CONNECTED
        /\ dynamoPort (hook (happen (eventHappening e) w)) = Some p).
Proof.
  destruct e as [ms|net|newDynamo net rendered call|]; cbn [eventHappening happen].
  - destruct (elapse_port ms w) as [[Hh _]|H]; [left; rewrite Hh; reflexivity|].
    right; left; exact H.
  - destruct (inflight w) as [|n] eqn:En.
    + left. unfold roundSettles. rewrite En. reflexivity.
    + destruct (hook_after_settle net w n En) as [Hh [_ Hc]].
      destruct (countOf isLive (probeResults net)) as [|k] eqn:Ek.
      * left. rewrite Hh, (proj2 (finish_cases net (hook w)) Ek). reflexivity.
      * right; right.
        destruct (proj1 (finish_cases net (hook w))) as [p Hp]; [lia|].
        exists net, p. rewrite Hc, Hh, Hp, Ek.
        repeat split. lia.
  - left. rewrite (proj1 (hook_after_call newDynamo net rendered call w)).
    rewrite perform_store.
    destruct (requestFailure _ net call) as [e|]; [|reflexivity].
    destruct (hasErrorFeedback call && negb (exempt call e)); reflexivity.
  - right; left. unfold startRound. cbn. rewrite length_app. cbn.
    split; [reflexivity | lia].
Qed.

(** C7, amended. The port is cleared whenever a round starts and is
    written otherwise only when a round settles with a live probe, which
    sets it together with the state [CONNECTED]: a round that settles
    without a live probe leaves the port as it finds it, and no facade
    call touches it, the demotion to [LOST_CONNECTION] included.  Over the
    mounted hook, every event leaves the port, or clears it while starting
    a round, or sets it while a round settles in [CONNECTED].  So a round
    that runs from its start to its settlement with nothing else updating
    the hook in between leaves the port absent exactly when it does not
    end in [CONNECTED]; but the port can be present outside [CONNECTED]:
    after a demotion, and after two rounds that overlapped. *)
Theorem endpoint_written_by_rounds_only newDynamo net rendered call
  (c : Connector) (e : HookEvent) (w : World) :
  dynamoPort (exec portDiscovery_start c) = None
  /\ dynamoPort (hook (startRound w)) = None
  /\ (connectionState (state (exec (portDiscovery_finish net) c)) <> CONNECTED ->
      dynamoPort (exec (portDiscovery_finish net) c) = dynamoPort c)
  /\ (connectionState (state (exec (portDiscovery_finish net) c)) = CONNECTED ->
      exists p, dynamoPort (exec (portDiscovery_finish net) c) = Some p)
  /\ dynamoPort (exec (perform (dynamoLocalService newDynamo net rendered) call) c)
     = dynamoPort c
  /\ (dynamoPort (hook (happen (eventHappening e) w)) = dynamoPort (hook w)
      \/ (dynamoPort (hook (happen (eventHappening e) w)) = None
          /\ List.length (roundStarts w)
             < List.length (roundStarts (happen (eventHappening e) w)))
      \/ (exists net' p,
            e = RoundDone net'
            /\ 1 <= countOf isLive (probeResults net')
            /\ connectionOf (happen (eventHappening e) w) = CONNECTED
            /\ dynamoPort (hook (happen (eventHappening e) w)) = Some p))
  /\ (dynamoPort (afterRound net c) = None <->
      connectionState (state (afterRound net c)) <> CONNECTED)
  /\ (connectionOf lostWorld = LOST_CONNECTION
      /\ dynamoPort (hook lostWorld) = Some 55103%Z)
  /\ (connectionOf (play overlappingRounds) = NOT_CONNECTED
      /\ dynamoPort (hook (play overlappingRounds)) = Some 55103%Z).
Proof.
  split; [reflexivity|]. split; [reflexivity|].
  split.
  { unfold exec, portDiscovery_finish.
    destruct (Promise_any (portDiscovery_requests net)) as [a|errors].
    - intro H; exfalso; apply H; reflexivity.
    - destruct (find (status_is 503) errors); reflexivity. }
  split.
  { unfold exec, portDiscovery_finish.
    destruct (Promise_any (portDiscovery_requests net)) as [a|errors].
    - intros _. exists (port a). reflexivity.
    - destruct (find (status_is 503) errors); discriminate. }
  split.
  { rewrite perform_store.
    destruct (requestFailure _ net call) as [e'|]; [|reflexivity].
    destruct (hasErrorFeedback call && negb (exempt call e')); reflexivity. }
  split; [apply event_port_step|].
  split.
  { destruct (port_after_round net c) as [Hnone Hsome]. split.
    - intros H E. destruct (Hsome E) as [p Hp]. congruence.
    - exact Hnone. }
  split; split; vm_compute; reflexivity.
Qed.

Lemma endpoint_written_by_rounds_only_witness :
  dynamoPort (exec (portDiscovery_finish busyInstance) (connectedAt 55103))
  = Some 55103%Z
  /\ exists p,
       dynamoPort (exec (portDiscovery_finish oneInstance) initialConnector)
       = Some p.
Proof.
  pose proof (endpoint_written_by_rounds_only goneDynamo busyInstance
                (connectedAt 55103) CallServerInfo (connectedAt 55103)
                ReconnectCalled mount)
    as [_ [_ [H _]]].
  pose proof (endpoint_written_by_rounds_only goneDynamo oneInstance
                (connectedAt 55103) CallServerInfo initialConnector
                ReconnectCalled mount)
    as [_ [_ [_ [H' _]]]].
  split.
  - rewrite H; [reflexivity|]. vm_compute. discriminate.
  - apply H'. reflexivity.
Defined.

Lemma url_undefined_iff c :
  getDynamoUrl c = "http://localhost:undefined" <-> dynamoPort c = None.
Proof.
  change "http://localhost:undefined"
    with (getDynamoUrl {| state := state c; dynamoPort := None |}).
  apply getDynamoUrl_port.
Qed.

(** X4. From the moment a round starts the service is bound to the
    literal URL [http://localhost:undefined], and it stays bound to it
    through time passing, facade calls, further rounds starting and rounds
    settling without a live probe: only a round that settles in
    [CONNECTED] ends it, and the URL such a round leaves is never that
    one.  In particular a round that runs from start to settlement with
    nothing in between and does not end in [CONNECTED] leaves the URL
    [http://localhost:undefined]. *)
Theorem url_undefined_until_a_round_connects (net : Z -> Probe) (c : Connector)
  (e : HookEvent) (w : World) :
  getDynamoUrl (exec portDiscovery_start c) = "http://localhost:undefined"
  /\ getDynamoUrl (hook (startRound w)) = "http://localhost:undefined"
  /\ (getDynamoUrl (hook w) = "http://localhost:undefined" ->
      getDynamoUrl (hook (happen (eventHappening e) w)) = "http://localhost:undefined"
      \/ exists net',
           e = RoundDone net'
           /\ 1 <= countOf isLive (probeResults net')
           /\ connectionOf (happen (eventHappening e) w) = CONNECTED)
  /\ (connectionState (state (exec (portDiscovery_finish net) c)) = CONNECTED ->
      getDynamoUrl (exec (portDiscovery_finish net) c) <> "http://localhost:undefined")
  /\ (connectionState (state (afterRound net c)) <> CONNECTED ->
      getDynamoUrl (afterRound net c) = "http://localhost:undefined")
  /\ (connectionState (state (afterRound net c)) = CONNECTED ->
      getDynamoUrl (afterRound net c) <> "http://localhost:undefined").
Proof.
  split; [reflexivity|]. split; [reflexivity|].
  split.
  { intro H. apply url_undefined_iff in H.
    destruct (event_port_step e w) as [E|[[E _]|[net' [p [He [Hl [Hc _]]]]]]].
    - left. apply url_undefined_iff. rewrite E. exact H.
    - left. apply url_undefined_iff. exact E.
    - right. exists net'. repeat split; assumption. }
  split.
  { intros H E. apply url_undefined_iff in E. revert H E.
    unfold exec, portDiscovery_finish.
    destruct (Promise_any (portDiscovery_requests net)) as [a|errors].
    - intros _ E. discriminate E.
    - destruct (find (status_is 503) errors); intros H; discriminate H. }
  destruct (port_after_round net c) as [Hnone Hsome].
  split.
  - intro H. apply url_undefined_iff. exact (Hnone H).
  - intros H E. apply url_undefined_iff in E.
    destruct (Hsome H) as [p Hp]. congruence.
Qed.

Lemma url_undefined_until_a_round_connects_witness :
  (getDynamoUrl (hook (happen (eventHappening (RoundDone nobodyHome))
                         (startRound connectedWorld)))
   = "http://localhost:undefined"
   \/ exists net',
        RoundDone nobodyHome = RoundDone net'
        /\ 1 <= countOf isLive (probeResults net')
        /\ connectionOf (happen (eventHappening (RoundDone nobodyHome))
                           (startRound connectedWorld)) = CONNECTED)
  /\ getDynamoUrl (afterRound busyInstance (connectedAt 55103))
     = "http://localhost:undefined"
  /\ getDynamoUrl (afterRound oneInstance initialConnector)
     <> "http://localhost:undefined".
Proof.
  pose proof (url_undefined_until_a_round_connects busyInstance (connectedAt 55103)
                (RoundDone nobodyHome) (startRound connectedWorld))
    as [_ [_ [H1 [_ [H2 _]]]]].
  pose proof (url_undefined_until_a_round_connects oneInstance initialConnector
                (RoundDone nobodyHome) (startRound connectedWorld))
    as [_ [_ [_ [_ [_ H3]]]]].
  split; [apply H1; reflexivity|]. split.
  - apply H2. vm_compute. discriminate.
  - apply H3. reflexivity.
Defined.







(** * The drop zone *)

Module DropZoneFacts.
Import DropZone.

(** A loop whose body never throws makes every call, in order. *)
Lemma forEach_quiet {A} (body : A -> list File * bool) xs :
  (forall x, In x xs -> snd (body x) = false) ->
  forEach body xs = (flat_map (fun x => fst (body x)) xs, false).
Proof.
  induction xs as [|x xs IH]; intro H; [reflexivity|].
  cbn [forEach flat_map].
  pose proof (H x (or_introl eq_refl)) as Hx.
  destruct (body x) as [calls thrown]. cbn [snd fst] in *. subst thrown.
  rewrite IH by (intros y Hy; apply H; right; exact Hy). reflexivity.
Qed.

(** Every call the loop makes is a call of the body on some element. *)
Lemma forEach_calls {A} (body : A -> list File * bool) xs f :
  In f (fst (forEach body xs)) -> exists x, In x xs /\ In f (fst (body x)).
Proof.
  induction xs as [|x xs IH]; cbn [forEach]; [intros []|].
  destruct (body x) as [calls thrown] eqn:E.
  destruct thrown.
  - cbn [fst]. intro H. exists x. rewrite E. split; [left; reflexivity | exact H].
  - destruct (forEach body xs) as [later thrown'] eqn:E'. cbn [fst] in *.
    intro H. apply in_app_or in H. destruct H as [H|H].
    + exists x. rewrite E. split; [left; reflexivity | exact H].
    + destruct (IH H) as [y [Hy Hf]]. exists y. split; [right|]; assumption.
Qed.


Lemma dropItem_calls throws item f :
  In f (fst (dropItem throws item)) <->
  kind item = "file" /\ getAsFile item = Some f.
Proof.
  unfold dropItem. destruct (String.eqb_spec (kind item) "file") as [E|E].
  - destruct (getAsFile item) as [g|]; cbn.
    + split; [intros [->|[]]; split; [assumption|reflexivity]
             | intros [_ H]; injection H as ->; left; reflexivity].
    + split; [intros [] | intros [_ H]; discriminate].
  - cbn. split; [intros [] | intros [H _]; contradiction].
Qed.

(** X16. When the drop event carries an item list, the callback is
    called only with files of items of kind "file", and the [files] list
    of the event plays no part; if the callback does not throw, it is
    called once for every such item, in the order of the items, and for
    nothing else. *)
Theorem drop_delivers_the_file_items (throws : Callback)
  (its : list DataTransferItem) (fs fs' : option (list File)) :
  let event := {| dataTransfer := Some {| items := Some its; files := fs |} |} in
  let event' := {| dataTransfer := Some {| items := Some its; files := fs' |} |} in
  onDrop throws event = onDrop throws event'
  /\ (forall f, In f (dropped (onDrop throws event)) ->
        exists item, In item its /\ kind item = "file" /\ getAsFile item = Some f)
  /\ ((forall f, throws (Some f) = false) ->
      escaped (onDrop throws event) = false
      /\ dropped (onDrop throws event)
         = flat_map (fun item =>
                       if String.eqb (kind item) "file"
                       then match getAsFile item with
                            | Some f => [f]
                            | None => []
                            end
                       else []) its).
Proof.
  intros event event'. split; [reflexivity|]. split.
  - intros f H. unfold onDrop in H. cbn in H.
    apply forEach_calls in H. destruct H as [item [Hin Hf]].
    exists item. split; [exact Hin|]. apply (dropItem_calls throws). exact Hf.
  - intro Hq. unfold onDrop. cbn [event dataTransfer option_map items dropped escaped].
    rewrite forEach_quiet.
    + cbn [fst snd]. split; [reflexivity|].
      apply flat_map_ext. intro item. unfold dropItem.
      destruct (String.eqb (kind item) "file"); [|reflexivity].
      destruct (getAsFile item); reflexivity.
    + intros item _. unfold dropItem.
      destruct (String.eqb (kind item) "file"); [|reflexivity].
      destruct (getAsFile item); [apply Hq | reflexivity].
Qed.

Lemma drop_delivers_the_file_items_witness :
  escaped (onDrop quiet mixedDrop) = false
  /\ dropped (onDrop quiet mixedDrop) = ["a.dyn"; "b.dyn"].
Proof.
  apply (proj2 (proj2 (drop_delivers_the_file_items quiet
                         [ {| kind := "file"; getAsFile := Some "a.dyn" |};
                           {| kind := "string"; getAsFile := None |};
                           {| kind := "file"; getAsFile := Some "b.dyn" |} ]
                         (Some ["a.dyn"; "b.dyn"]) None))).
  reflexivity.
Defined.

(** X17. Without an item list the handler falls back on the [files] of
    the event: with a callback that does not throw every file is
    delivered, in order; without a data transfer, or with neither list,
    nothing is delivered. *)
Theorem drop_falls_back_on_files (throws : Callback) (fs : list File) :
  ((forall f, throws (Some f) = false) ->
   dropped (onDrop throws
              {| dataTransfer := Some {| items := None; files := Some fs |} |})
   = fs)
  /\ dropped (onDrop throws {| dataTransfer := None |}) = []
  /\ dropped (onDrop throws
                {| dataTransfer := Some {| items := None; files := None |} |})
     = [].
Proof.
  split; [|split; reflexivity].
  intro Hq. unfold onDrop. cbn [dataTransfer option_map items files dropped].
  rewrite forEach_quiet by (intros f _; apply Hq).
  cbn [fst]. induction fs as [|f fs IH]; [reflexivity|].
  cbn [flat_map]. rewrite IH. reflexivity.
Qed.

Lemma drop_falls_back_on_files_witness :
  dropped (onDrop quiet
             {| dataTransfer :=
                  Some {| items := None; files := Some ["a.dyn"; "b.dyn"] |} |})
  = ["a.dyn"; "b.dyn"].
Proof.
  apply (proj1 (drop_falls_back_on_files quiet ["a.dyn"; "b.dyn"])).
  reflexivity.
Defined.



(** X19. The component never shows the dragging highlight: no handler
    ever sets [dragging], so after any sequence of events it is still
    false and the zone is drawn with the white background and the base
    border. *)
Theorem dragging_highlight_never_shows (throws : Callback)
  (events : list UiEvent) (filetypes : list string) :
  draggingAfter throws events = false
  /\ backgroundColor (render filetypes (draggingAfter throws events)) = "white"
  /\ border (render filetypes (draggingAfter throws events))
     = "1px dashed var(--border-base)".
Proof.
  assert (H : draggingAfter throws events = false).
  { unfold draggingAfter.
    assert (Hgen : forall d, d = false -> fold_left (handle throws) events d = false).
    { induction events as [|e events IH]; intros d Hd; [exact Hd|].
      cbn [fold_left]. apply IH. destruct e; cbn; try exact Hd; reflexivity. }
    apply Hgen. reflexivity. }
  rewrite H. repeat split.
Qed.

(** A change of the file input calls the callback exactly once, with the
    first selected file whatever else was selected, and with no file at
    all when the selection is empty; an exception of the callback is
    logged and goes no further.  With no file list there is no call. *)
Lemma input_change_delivers_first_file_only (throws : Callback)
  (f : File) (more more' : list File) :
  delivered (onchange throws (Some (f :: more))) = [Some f]
  /\ onchange throws (Some (f :: more)) = onchange throws (Some (f :: more'))
  /\ logged (onchange throws (Some (f :: more))) = throws (Some f)
  /\ delivered (onchange throws (Some [])) = [None]
  /\ delivered (onchange throws None) = [].
Proof. repeat split. Qed.

End DropZoneFacts.

(** * The share form *)

Module PublishGraphFacts.
Import PublishGraph.

Lemma blank_iff s : blank s = true <-> s = "".
Proof. unfold blank. apply String.eqb_eq. Qed.

Lemma blank_false_iff s : blank s = false <-> s <> "".
Proof. unfold blank. apply String.eqb_neq. Qed.

Lemma incomplete_false cells :
  incomplete cells = false <->
  name cells <> "" /\ description cells <> "" /\ author cells <> ""
  /\ exists g, uploadedGraph cells = Some g.
Proof.
  unfold incomplete. rewrite !orb_false_iff, !blank_false_iff.
  destruct (uploadedGraph cells) as [g|].
  - split; [intros [[[H1 H2] H3] _]; repeat split; try assumption; exists g; reflexivity
           | intros [H1 [H2 [H3 _]]]; repeat split; assumption].
  - split; [intros [_ H]; discriminate | intros [_ [_ [_ [g H]]]]; discriminate].
Qed.

(** X20. With anything missing, [publishGraph] only switches the form to
    "publishing" and then to "invalid": it reads no project and writes
    nothing.  The message names the first thing missing, in the order
    Name, Description, Author, Graph. *)
Theorem publishing_an_incomplete_form_only_reports (h : Helpers) (forma : Forma)
  (cells : Cells) :
  (name cells = "" ->
   publishGraph h forma cells
   = [SetState Publishing; SetState (Invalid "Please fill out Name")])
  /\ (name cells <> "" -> description cells = "" ->
      publishGraph h forma cells
      = [SetState Publishing; SetState (Invalid "Please fill out Description")])
  /\ (name cells <> "" -> description cells <> "" -> author cells = "" ->
      publishGraph h forma cells
      = [SetState Publishing; SetState (Invalid "Please fill out Author")])
  /\ (name cells <> "" -> description cells <> "" -> author cells <> "" ->
      uploadedGraph cells = None ->
      publishGraph h forma cells
      = [SetState Publishing; SetState (Invalid "Please fill out Graph")]).
Proof.
  unfold publishGraph, incomplete, missingField.
  split; [|split; [|split]].
  - intro H1. apply blank_iff in H1. rewrite H1. reflexivity.
  - intros H1 H2. apply blank_false_iff in H1. apply blank_iff in H2.
    rewrite H1, H2. reflexivity.
  - intros H1 H2 H3. apply blank_false_iff in H1, H2. apply blank_iff in H3.
    rewrite H1, H2, H3. reflexivity.
  - intros H1 H2 H3 H4. apply blank_false_iff in H1, H2, H3.
    rewrite H1, H2, H3, H4. reflexivity.
Qed.

Lemma publishing_an_incomplete_form_only_reports_witness :
  publishGraph plainHelpers workingForma (initialCells (Some tower) Project)
  = [SetState Publishing; SetState (Invalid "Please fill out Name")].
Proof.
  apply (proj1 (publishing_an_incomplete_form_only_reports plainHelpers
                  workingForma (initialCells (Some tower) Project))).
  reflexivity.
Defined.

(** X21. With the form complete and the platform working, [publishGraph]
    reads the project, writes one object, and then switches to
    "published" and to the default page.  The data written is
    [JSON.stringify(filterForSize(G))], where the graph [G] handed to
    [filterForSize] carries the name, description and author typed into
    the form, whatever the uploaded graph said, and every other key of
    the uploaded graph; what [filterForSize], which is not among the
    sources, keeps of [G] is not settled here.  The object goes to the
    project or to the hub as chosen, under the key [v4()] gave. *)
Theorem publishing_writes_the_form_over_the_graph (h : Helpers) (forma : Forma)
  (cells : Cells) (g : DynamoGraph) (project : ProjectInfo) :
  name cells <> "" -> description cells <> "" -> author cells <> "" ->
  uploadedGraph cells = Some g ->
  project_get forma = Done project ->
  storage_setObject forma (storageObject h forma project cells) = Done tt ->
  publishGraph h forma cells
  = [SetState Publishing; ProjectGet;
     SetObject (storageObject h forma project cells);
     SetState Published; SetPage DefaultPage]
  /\ data (storageObject h forma project cells)
     = stringify h (filterForSize h
         {| Name := Some (name cells);
            Description := Some (description cells);
            Author := Some (author cells);
            Thumbnail := Thumbnail g;
            others := others g |})
  /\ authcontext (storageObject h forma project cells)
     = match shareDestination cells with
       | Project => getProjectId forma
       | Hub => hubId project
       end
  /\ key (storageObject h forma project cells) = v4 h.
Proof.
  intros H1 H2 H3 Hg Hp Hs.
  assert (Hc : incomplete cells = false).
  { apply incomplete_false. repeat split; try assumption. exists g. exact Hg. }
  unfold publishGraph. rewrite Hc, Hp, Hs.
  split; [reflexivity|].
  unfold storageObject, graphToShare. cbn [data authcontext key]. rewrite Hg.
  repeat split.
Qed.

Lemma publishing_writes_the_form_over_the_graph_witness :
  publishGraph plainHelpers workingForma
    (prefill (initialCells (Some tower) Hub))
  = [SetState Publishing; ProjectGet;
     SetObject (storageObject plainHelpers workingForma {| hubId := "hub-1" |}
                  (prefill (initialCells (Some tower) Hub)));
     SetState Published; SetPage DefaultPage].
Proof.
  apply (publishing_writes_the_form_over_the_graph plainHelpers workingForma
           (prefill (initialCells (Some tower) Hub)) tower {| hubId := "hub-1" |}).
  - discriminate.
  - discriminate.
  - discriminate.
  - reflexivity.
  - reflexivity.
  - reflexivity.
Defined.

(** X22. A failure of the platform ends in "failed" and is reported once;
    nothing is published and the page is not left.  If reading the
    project fails, nothing is written at all. *)
Theorem publishing_failure_is_reported (h : Helpers) (forma : Forma)
  (cells : Cells) (reason : string) :
  incomplete cells = false ->
  (project_get forma = Raised reason ->
   publishGraph h forma cells
   = [SetState Publishing; ProjectGet;
      CaptureException reason "Error sharing graph"; SetState Failed])
  /\ (forall project,
        project_get forma = Done project ->
        storage_setObject forma (storageObject h forma project cells)
        = Raised reason ->
        publishGraph h forma cells
        = [SetState Publishing; ProjectGet;
           SetObject (storageObject h forma project cells);
           CaptureException reason "Error sharing graph"; SetState Failed]).
Proof.
  intro Hc. unfold publishGraph. rewrite Hc. split.
  - intros ->. reflexivity.
  - intros project -> ->. reflexivity.
Qed.

Lemma publishing_failure_is_reported_witness :
  publishGraph plainHelpers
    {| project_get := Raised "offline"; getProjectId := "project-1";
       storage_setObject := fun _ => Done tt |}
    (prefill (initialCells (Some tower) Project))
  = [SetState Publishing; ProjectGet;
     CaptureException "offline" "Error sharing graph"; SetState Failed].
Proof.
  apply (proj1 (publishing_failure_is_reported plainHelpers
                  {| project_get := Raised "offline"; getProjectId := "project-1";
                     storage_setObject := fun _ => Done tt |}
                  (prefill (initialCells (Some tower) Project)) "offline"
                  eq_refl)).
  reflexivity.
Defined.







End PublishGraphFacts.
